(** * go-spring: the flat property store and the Pandora task primitives

    A shallow embedding of [spring-core/conf/conf.go] (type [Properties]:
    [New], [Map], [Keys], [Get], [Set], [Bind], [Group], [Resolve]) and of
    the [pandora] methods [Go] and [Invoke] of package [gs].

    Go strings are byte strings and are modelled by [string]; the store
    [map[string]string] is a [gmap string string]; a value of type
    [interface{}] is a tree of type [value]. *)

From Stdlib Require Import String Ascii List Arith Lia.
From stdpp Require Import base gmap strings list fin_maps pretty.

Set Warnings "-register-all".
Open Scope string_scope.

(** ** Go values held in an [interface{}] *)

(** The dynamic values [Set] and [Get] receive. [VMap] lists the entries in
    the order [reflect.Value.MapKeys] hands them out (Go leaves that order
    unspecified, so every statement below quantifies over it); [VOther]
    stands for a value of any further kind (float, struct, pointer, func,
    channel), identified by a tag. *)
Inductive value : Type :=
  | VNil
  | VBool (b : bool)
  | VInt (z : Z)
  | VString (s : string)
  | VOther (tag : string)
  | VMap (entries : list (value * value))
  | VArray (elems : list value)
  | VSlice (elems : list value).

(** Induction over a value together with all the values nested in it. Map
    keys are never decomposed by the code, so only the entry values carry
    an induction hypothesis. *)
Section value_induction.
Variable P : value → Prop.
Hypothesis HNil : P VNil.
Hypothesis HBool : ∀ b, P (VBool b).
Hypothesis HInt : ∀ z, P (VInt z).
Hypothesis HString : ∀ s, P (VString s).
Hypothesis HOther : ∀ t, P (VOther t).
Hypothesis HMap : ∀ es, Forall (λ kv, P kv.2) es → P (VMap es).
Hypothesis HArray : ∀ xs, Forall P xs → P (VArray xs).
Hypothesis HSlice : ∀ xs, Forall P xs → P (VSlice xs).

Fixpoint value_nested_ind (v : value) : P v :=
  match v with
  | VNil => HNil
  | VBool b => HBool b
  | VInt z => HInt z
  | VString s => HString s
  | VOther t => HOther t
  | VMap es =>
      HMap es
        ((fix all (es : list (value * value)) : Forall (λ kv, P kv.2) es :=
            match es with
            | [] => List.Forall_nil _
            | (k, x) :: es' =>
                @List.Forall_cons _ (λ kv, P kv.2) (k, x) es' (value_nested_ind x) (all es')
            end) es)
  | VArray xs =>
      HArray xs
        ((fix all (xs : list value) : Forall P xs :=
            match xs with
            | [] => List.Forall_nil _
            | x :: xs' => @List.Forall_cons _ P x xs' (value_nested_ind x) (all xs')
            end) xs)
  | VSlice xs =>
      HSlice xs
        ((fix all (xs : list value) : Forall P xs :=
            match xs with
            | [] => List.Forall_nil _
            | x :: xs' => @List.Forall_cons _ P x xs' (value_nested_ind x) (all xs')
            end) xs)
  end.
End value_induction.

(** ** The functions of Go's [strings] package that conf.go calls *)

(** [strings.HasPrefix(s, prefix)]. *)
Fixpoint HasPrefix (s prefix : string) {struct prefix} : bool :=
  match prefix with
  | EmptyString => true
  | String c prefix' =>
      match s with
      | EmptyString => false
      | String d s' => if decide (c = d) then HasPrefix s' prefix' else false
      end
  end.

(** [s[n:]] for [n <= len(s)]. *)
Fixpoint skip (n : nat) (s : string) : string :=
  match n with
  | 0 => s
  | S n' => match s with EmptyString => EmptyString | String _ s' => skip n' s' end
  end.

(** [strings.TrimPrefix(s, prefix)]: [s] without the leading [prefix], or
    [s] itself when it does not start with [prefix]. *)
Definition TrimPrefix (s prefix : string) : string :=
  if HasPrefix s prefix then skip (String.length prefix) s else s.

(** [strings.Split(s, sep)] for a separator of one byte, which is the only
    use conf.go makes of it ([strings.Split(s, ".")]). The result is never
    empty. *)
Fixpoint Split (s : string) (sep : ascii) : list string :=
  match s with
  | EmptyString => [EmptyString]
  | String c s' =>
      if decide (c = sep) then EmptyString :: Split s' sep
      else match Split s' sep with
           | [] => [String c EmptyString]
           | seg :: segs => String c seg :: segs
           end
  end.

(** [l[0]] of a list of strings that is known not to be empty. *)
Definition first (l : list string) : string := hd EmptyString l.

(** The byte ['.'] . *)
Definition dot : ascii := "."%char.

(** ** Placeholder syntax *)

(** The text before the first ["${"] of [s] and the text after it. *)
Fixpoint find_open (s : string) : option (string * string) :=
  match s with
  | EmptyString => None
  | String c s' =>
      match s' with
      | EmptyString => None
      | String d s'' =>
          if decide (c = "$"%char ∧ d = "{"%char) then Some (EmptyString, s'')
          else match find_open s' with
               | Some (pre, after) => Some (String c pre, after)
               | None => None
               end
      end
  end.

(** The balanced-brace span: [s] follows an opening ["${"]; [depth] counts
    the references opened inside the span and not yet closed. The result is
    the content of the span and the text after its closing ["}"]. *)
Fixpoint find_close (depth : nat) (s : string) : option (string * string) :=
  match s with
  | EmptyString => None
  | String c s' =>
      if decide (c = "}"%char) then
        match depth with
        | 0 => Some (EmptyString, s')
        | S depth' =>
            match find_close depth' s' with
            | Some (content, rest) => Some (String c content, rest)
            | None => None
            end
        end
      else
        match s' with
        | String d s'' =>
            if decide (c = "$"%char ∧ d = "{"%char) then
              match find_close (S depth) s'' with
              | Some (content, rest) => Some (String c (String d content), rest)
              | None => None
              end
            else
              match find_close depth s' with
              | Some (content, rest) => Some (String c content, rest)
              | None => None
              end
        | EmptyString => None
        end
  end.

(** The content of a reference split at its first [":="] into the name and
    the default; no default when there is no [":="]. *)
Fixpoint split_def (s : string) : string * option string :=
  match s with
  | EmptyString => (EmptyString, None)
  | String c s' =>
      match s' with
      | EmptyString => (String c EmptyString, None)
      | String d s'' =>
          if decide (c = ":"%char ∧ d = "="%char) then (EmptyString, Some s'')
          else let (name, default) := split_def s' in (String c name, default)
      end
  end.

(** A name that is free of the bytes of the placeholder syntax. *)
Fixpoint plain (s : string) : bool :=
  match s with
  | EmptyString => true
  | String c s' =>
      if decide (c = "$"%char ∨ c = "{"%char ∨ c = "}"%char ∨ c = ":"%char)
      then false else plain s'
  end.

(** The reference [${name}]. *)
Definition reference (name : string) : string := "${" +:+ name +:+ "}".

(** The reference [${name:=default}]. *)
Definition reference_or (name default : string) : string :=
  "${" +:+ name +:+ ":=" +:+ default +:+ "}".

(** A text without the byte ['$'], in which no reference can begin. *)
Fixpoint literal (s : string) : bool :=
  match s with
  | EmptyString => true
  | String c s' => if decide (c = "$"%char) then false else literal s'
  end.

(** [refers val name]: the first reference in the text [val] is
    [${name}], after a literal text. *)
Definition refers (val name : string) : Prop :=
  ∃ pre post, literal pre = true ∧ val = pre +:+ reference name +:+ post.

(** [linked m l back]: every name of [l] is stored with a text that refers
    to the name after it, and the last with a text that refers to
    [back]. *)
Fixpoint linked (m : gmap string string) (l : list string) (back : string)
  : Prop :=
  match l with
  | [] => True
  | k :: l' =>
      (∃ val, m !! k = Some val ∧ refers val (hd back l')) ∧ linked m l' back
  end.

(** An instance of [ToString] for concrete inputs: what [cast.ToString]
    gives for strings, booleans and integers; the values of the other
    constructors are given the empty string here. *)
Definition castToString (v : value) : string :=
  match v with
  | VString s => s
  | VBool true => "true"
  | VBool false => "false"
  | VInt z => pretty z
  | _ => ""
  end.

(** The errors of the resolver. *)
Inductive error : Type :=
  | ErrReferenceCycle (key : string)
  | ErrNotExist (key : string).

(** The result of a resolution that is run with a bound on its depth:
    a string, an error, or [Starved] when the bound was too small. *)
Inductive outcome : Type :=
  | Done (s : string)
  | Fail (e : error)
  | Starved.

Definition andThen (o : outcome) (k : string → outcome) : outcome :=
  match o with
  | Done s => k s
  | Fail e => Fail e
  | Starved => Starved
  end.

Notation "'let?' x := o 'in' k" := (andThen o (λ x, k))
  (at level 10, x name, o at level 100, k at level 200).

(** [rootKey] of conf.go. *)
Definition rootKey : string := "$".

(** [fmt.Sprintf("%s[%d]", key, i)] for a loop index [i >= 0]. *)
Definition indexKey (key : string) (i : nat) : string :=
  key +:+ "[" +:+ pretty i +:+ "]".

(** [key + "." + mapKey]. *)
Definition fieldKey (key mapKey : string) : string :=
  key +:+ "." +:+ mapKey.

Section Store.

(** [cast.ToString] of github.com/spf13/cast is not part of the
    repository; the store only needs it as a function from values to
    strings. *)
Variable ToString : value → string.

(** [Properties.Set]: the [reflect.Map] case walks the entries, the
    [reflect.Array, reflect.Slice] case walks the indices from 0, every
    other kind is written under [key]. The store is passed explicitly. *)
Fixpoint Set_ (key : string) (val : value) (m : gmap string string)
  {struct val} : gmap string string :=
  match val with
  | VMap entries =>
      (fix range (es : list (value * value)) (m : gmap string string) :=
         match es with
         | [] => m
         | (k, mapValue) :: es' =>
             range es' (Set_ (fieldKey key (ToString k)) mapValue m)
         end) entries m
  | VArray elems | VSlice elems =>
      (fix loop (i : nat) (xs : list value) (m : gmap string string) :=
         match xs with
         | [] => m
         | subValue :: xs' =>
             loop (S i) xs' (Set_ (indexKey key i) subValue m)
         end) 0 elems m
  | _ => <[key := ToString val]> m
  end.


(** The two loops of [Set] on their own. *)
Definition Set_fields (key : string) (es : list (value * value))
  (m : gmap string string) : gmap string string :=
  fold_left (λ m kv, Set_ (fieldKey key (ToString kv.1)) kv.2 m) es m.

Fixpoint Set_elems (key : string) (i : nat) (xs : list value)
  (m : gmap string string) : gmap string string :=
  match xs with
  | [] => m
  | x :: xs' => Set_elems key (S i) xs' (Set_ (indexKey key i) x m)
  end.

(** What the specification calls a scalar: a value [Set] does not
    decompose. *)
Definition scalar (v : value) : bool :=
  match v with
  | VMap _ | VArray _ | VSlice _ => false
  | _ => true
  end.

(** The flattening as the specification words it: [leaf key val p s] says
    that decomposing [val] under [key] reaches a scalar at key [p] whose
    string representation is [s]. Record fields become [key.field],
    sequence elements become [key[i]]. *)
Inductive leaf : string → value → string → string → Prop :=
  | leaf_scalar key v :
      scalar v = true → leaf key v key (ToString v)
  | leaf_field key es k v p s :
      (k, v) ∈ es → leaf (fieldKey key (ToString k)) v p s →
      leaf key (VMap es) p s
  | leaf_array key xs i x p s :
      xs !! i = Some x → leaf (indexKey key i) x p s →
      leaf key (VArray xs) p s
  | leaf_slice key xs i x p s :
      xs !! i = Some x → leaf (indexKey key i) x p s →
      leaf key (VSlice xs) p s.

(** The same leaf assignments as a list, in the order of the traversal. *)
Fixpoint leaves (key : string) (val : value) {struct val}
  : list (string * string) :=
  match val with
  | VMap entries =>
      (fix range (es : list (value * value)) :=
         match es with
         | [] => []
         | (k, v) :: es' =>
             (leaves (fieldKey key (ToString k)) v ++ range es')%list
         end) entries
  | VArray elems | VSlice elems =>
      (fix loop (i : nat) (xs : list value) :=
         match xs with
         | [] => []
         | x :: xs' => (leaves (indexKey key i) x ++ loop (S i) xs')%list
         end) 0 elems
  | _ => [(key, ToString val)]
  end.

Definition leaves_fields (key : string) (es : list (value * value))
  : list (string * string) :=
  flat_map (λ kv, leaves (fieldKey key (ToString kv.1)) kv.2) es.

Fixpoint leaves_elems (key : string) (i : nat) (xs : list value)
  : list (string * string) :=
  match xs with
  | [] => []
  | x :: xs' => (leaves (indexKey key i) x ++ leaves_elems key (S i) xs')%list
  end.

(** Writing a list of assignments into the store, first to last. *)
Definition assign (l : list (string * string)) (m : gmap string string)
  : gmap string string :=
  fold_left (λ m kv, <[kv.1 := kv.2]> m) l m.


(** [New]: the empty property list. *)
Definition New : gmap string string := ∅.

(** [Map]: [Set] for every entry of [m], in the order the [range] loop
    meets them. *)
Definition Map (m : list (string * value)) : gmap string string :=
  fold_left (λ p kv, Set_ kv.1 kv.2 p) m New.

(** [Keys] ranges over the Go map, whose iteration order is left open by
    the language: [Keys] is one enumeration, and [KeysOf m ks] says that
    [ks] is an enumeration a call of [Keys] may return. *)
Definition Keys (m : gmap string string) : list string :=
  (map_to_list m).*1.

Definition KeysOf (m : gmap string string) (ks : list string) : Prop :=
  ks ≡ₚ Keys m.

Record getArg : Type := mk_getArg { def : value }.

(** A [GetOption] updates the [getArg] it is given. [getArg] is not
    exported, so outside the package the options are those built with
    [Def]. *)
Definition GetOption : Type := getArg → getArg.

(** [Def]: the option that sets the default of [Get]. *)
Definition Def (v : value) : GetOption := λ _, {| def := v |}.

(** [Properties.Get]. The result [interface{}] is a string or [nil]:
    [Some s] or [None]. [arg.def != nil] compares with the nil
    interface, [VNil]. *)
Definition Get (key : string) (opts : list GetOption)
  (m : gmap string string) : option string :=
  let key := TrimPrefix key (rootKey +:+ ".") in
  match m !! key with
  | Some val => Some val
  | None =>
      let arg := fold_left (λ arg (opt : GetOption), opt arg) opts {| def := VNil |} in
      match def arg with
      | VNil => None
      | d => Some (ToString d)
      end
  end.

(** Modelled from the spec: [contain.Strings] of spring-core is called by
    [Group] and is not among the sources; [Group] returns the
    de-duplicated child segments, so [contain.Strings(array, val)] is the
    index of [val] in [array], and -1 when [val] does not occur. *)
Fixpoint contain_Strings (array : list string) (val : string) : Z :=
  match array with
  | [] => (-1)%Z
  | x :: array' =>
      if decide (x = val) then 0%Z
      else let i := contain_Strings array' val in
           if (i <? 0)%Z then (-1)%Z else (i + 1)%Z
  end.

(** The closure [trimPrefix] of [Group]. *)
Definition trimPrefix (key prefix : string) : string * bool :=
  if decide (prefix = rootKey) then (key, true)
  else if negb (HasPrefix key (prefix +:+ ".")) then (EmptyString, false)
  else (TrimPrefix key (prefix +:+ "."), true).

(** The loop of [Group] over the keys [keys], with [groups] collected so
    far. *)
Fixpoint Group_loop (keys : list string) (prefix : string)
  (groups : list string) : list string :=
  match keys with
  | [] => groups
  | key :: keys' =>
      let (s, ok) := trimPrefix key prefix in
      if negb ok then Group_loop keys' prefix groups
      else
        let k := first (Split s dot) in
        if (0 <=? contain_Strings groups k)%Z then Group_loop keys' prefix groups
        else Group_loop keys' prefix (groups ++ [k])%list
  end.

(** [Properties.Group] when [p.Keys()] returned [keys]. *)
Definition Group_of (keys : list string) (prefix : string) : list string :=
  Group_loop keys prefix [].

Definition Group (m : gmap string string) (prefix : string) : list string :=
  Group_of (Keys m) prefix.

(** Modelled from the spec: [resolveString], which [Resolve] calls, is
    not among the sources. The specification (4.2) has it scan the string
    left to right; at a ["${"] it takes the balanced-brace span, splits it
    at the first [":="] into name and default, looks the name up in the
    store and resolves what it finds, resolves the default when the name
    is absent, and concatenates the resolved spans with the text between
    them. The names whose resolution is in progress are kept in [chain];
    a reference to a name of the chain is a revisitation: it falls back
    on its own default when it has one and is a reference-cycle error
    otherwise. A text with no complete reference is returned as it is.

    [budget] bounds how many stored values can be entered one inside the
    other and [fuel] the length of the text being scanned. *)
Fixpoint resolveString (budget : nat) (m : gmap string string)
  {struct budget} : nat → list string → string → outcome :=
  fix scan (fuel : nat) (chain : list string) (s : string)
    {struct fuel} : outcome :=
    match fuel with
    | 0 => Starved
    | S fuel' =>
        match find_open s with
        | None => Done s
        | Some (pre, after) =>
            match find_close 0 after with
            | None => Done s
            | Some (content, rest) =>
                let (name, default) := split_def content in
                let key := TrimPrefix name (rootKey +:+ ".") in
                let? v :=
                    (if decide (key ∈ chain) then
                       match default with
                       | Some d => scan fuel' chain d
                       | None => Fail (ErrReferenceCycle key)
                       end
                     else
                       match Get name [] m with
                       | Some val =>
                           match budget with
                           | 0 => Starved
                           | S budget' =>
                               resolveString budget' m (S (String.length val))
                                 (key :: chain) val
                           end
                       | None =>
                           match default with
                           | Some d => scan fuel' (key :: chain) d
                           | None => Fail (ErrNotExist key)
                           end
                       end) in
                let? r := scan fuel' chain rest in
                Done (pre +:+ v +:+ r)
            end
        end
    end.

(** The stored keys that are not in the chain: the measure of the
    budget. *)
Definition pending (m : gmap string string) (chain : list string) : nat :=
  size (dom m ∖ list_to_set chain : gset string).

(** [Properties.Resolve]: [resolveString] from an empty chain, with a
    budget of one entry per stored key. *)
Definition Resolve (m : gmap string string) (s : string) : outcome :=
  resolveString (size m) m (S (String.length s)) [] s.

End Store.

(** ** Reconstruction driven by [Group] *)

(** The child segment that [Group] takes from the key [k]. *)
Definition segment_under (prefix k g : string) : Prop :=
  (trimPrefix k prefix).2 = true ∧ g = first (Split (trimPrefix k prefix).1 dot).

(** What [Set] appends to its key: nothing, or a text that begins with a
    dot or with an opening bracket. *)
Definition suffix_shape (suffix : string) : Prop :=
  suffix = "" ∨ ∃ t, suffix = "." +:+ t ∨ suffix = "[" +:+ t.

(** The prefix of the child section [g] of [prefix]: [g] itself under the
    root marker, [prefix.g] elsewhere. *)
Definition child (prefix g : string) : string :=
  if decide (prefix = rootKey) then g else fieldKey prefix g.

(** The reconstruction that the specification (8) sets against [Set]; no
    function of conf.go performs it by itself. Starting at [prefix] it
    collects the prefix when it is a stored key, enumerates the child
    sections with [Group] and descends into each of them, [depth] levels
    deep. [keys] is what [Keys] returned. *)
Fixpoint rebuild (depth : nat) (keys : list string) (prefix : string)
  : list string :=
  match depth with
  | 0 => []
  | S depth' =>
      ((if decide (prefix ∈ keys) then [prefix] else []) ++
       flat_map (λ g, rebuild depth' keys (child prefix g))
         (Group_of keys prefix))%list
  end.

(** ** Package [reflect], as far as [Bind] and the task primitives use it *)

Module reflect.

Inductive Kind : Type :=
  | Invalid | Bool | Int | Int8 | Int16 | Int32 | Int64
  | Uint | Uint8 | Uint16 | Uint32 | Uint64 | Uintptr
  | Float32 | Float64 | Complex64 | Complex128
  | Array | Chan | Func | Interface | Map | Ptr | Slice
  | String | Struct | UnsafePointer.

#[global] Instance Kind_eq_dec : EqDecision Kind.
Proof. solve_decision. Defined.

(** A [reflect.Type]: what [Name()], [String()] and [Kind()] return, and
    the element type [Elem()] of the kinds that have one (array, chan,
    map, pointer and slice types). *)
Inductive rtype : Type :=
  | mk_rtype (name : string) (str : string) (kind : Kind) (elem : option rtype).

Definition type_Name (t : rtype) : string :=
  match t with mk_rtype name _ _ _ => name end.
Definition type_String (t : rtype) : string :=
  match t with mk_rtype _ str _ _ => str end.
Definition type_Kind (t : rtype) : Kind :=
  match t with mk_rtype _ _ kind _ => kind end.
Definition type_Elem (t : rtype) : option rtype :=
  match t with mk_rtype _ _ _ elem => elem end.

(** A [reflect.Value]: the zero Value, or a value with its type, whether
    it is addressable, and for a pointer that is not nil the value it
    points to. *)
Inductive Value : Type :=
  | zero
  | mk_Value (typ : rtype) (addressable : bool) (pointee : option Value).

Definition Kind_of (v : Value) : Kind :=
  match v with
  | zero => Invalid
  | mk_Value t _ _ => type_Kind t
  end.

Definition CanAddr (v : Value) : bool :=
  match v with
  | zero => false
  | mk_Value _ a _ => a
  end.

(** [v.Elem()] of a pointer: the value pointed to, the zero Value for a
    nil pointer. *)
Definition Elem (v : Value) : Value :=
  match v with
  | mk_Value _ _ (Some v') => v'
  | _ => zero
  end.

(** [v.Type()], which panics on the zero Value: [None]. *)
Definition Type_of (v : Value) : option rtype :=
  match v with
  | zero => None
  | mk_Value t _ _ => Some t
  end.

End reflect.

(** ** [Properties.Bind] *)

(** The argument [i interface{}] of [Bind], by the two cases of its type
    switch: a [reflect.Value], or anything else, given by what
    [reflect.ValueOf(i)] is (the zero Value for a nil interface). *)
Inductive target : Type :=
  | ReflectValue (v : reflect.Value)
  | Plain (valueOf : reflect.Value).

Record bindArg : Type := mk_bindArg { tag : string }.

Definition BindOption : Type := bindArg → bindArg.

(** [Key]: the option that binds under a key. *)
Definition Key (key : string) : BindOption :=
  λ _, {| tag := "${" +:+ key +:+ "}" |}.

(** [Tag]: the option that binds under a tag. *)
Definition Tag (t : string) : BindOption := λ _, {| tag := t |}.

(** The [bindOption] literal that [Bind] builds; only [path] is set. *)
Record bindOption : Type := mk_bindOption { path : string }.

(** [Bind] ends in one of three ways: it returns an error of its own, it
    returns whatever the call [bind(p, v, arg.tag, bindOption{path: s})]
    returns, or [v.Type()] panics on the zero Value. [bind] itself is not
    among the sources. *)
Inductive BindResult : Type :=
  | ReturnError (msg : string)
  | CallBind (p : gmap string string) (v : reflect.Value) (tag : string)
      (opt : bindOption)
  | PanicZeroValue.

Definition errNotPointer : string := "属性绑定的对象必须是一个指针".

(** The name [s] that [Bind] computes from the type of the target. *)
Definition pathOf (t : reflect.rtype) : string :=
  let s := reflect.type_Name t in
  if decide (s = EmptyString) then
    match reflect.type_Kind t with
    | reflect.Map | reflect.Slice | reflect.Array =>
        match reflect.type_Elem t with
        | Some e =>
            let s := reflect.type_Name e in
            if decide (s = EmptyString) then reflect.type_String e else s
        | None => EmptyString
        end
    | _ => reflect.type_String t
    end
  else s.

Definition Bind (p : gmap string string) (i : target)
  (opts : list BindOption) : BindResult :=
  let proceed (v : reflect.Value) : BindResult :=
    let arg := fold_left (λ arg (opt : BindOption), opt arg) opts
                 (Key rootKey {| tag := EmptyString |}) in
    match reflect.Type_of v with
    | None => PanicZeroValue
    | Some t => CallBind p v (tag arg) {| path := pathOf t |}
    end in
  match i with
  | ReflectValue v => proceed v
  | Plain v =>
      if decide (reflect.Kind_of v ≠ reflect.Ptr) then ReturnError errNotPointer
      else proceed (reflect.Elem v)
  end.

(** [Bind] run with a binder [bind] over the memory [Mem] that the binder
    writes to: the memory afterwards and the error returned, [None] for
    the panic. *)
Definition run_Bind {Mem : Type}
  (bind : gmap string string → reflect.Value → string → bindOption →
          Mem → Mem * option string)
  (r : BindResult) (mem : Mem) : option (Mem * option string) :=
  match r with
  | ReturnError msg => Some (mem, Some msg)
  | CallBind p v tag opt => Some (bind p v tag opt mem)
  | PanicZeroValue => None
  end.

(** ** Package [gs]: the task primitives of [pandora] *)

(** How a call ends in the goroutine that makes it: it returns, or it
    panics with a value. *)
Inductive result (A : Type) : Type :=
  | Returns (a : A)
  | Panics (v : string).
Arguments Returns {A} a.
Arguments Panics {A} v.

(** What [reflect.TypeOf(fn)] says about the argument [fn]: not a function
    (also for [nil]), or a function with its result types, of which only
    being the type [error] matters. *)
Inductive outType : Type := ErrorType | OtherType.

Inductive fnType : Type :=
  | NotFunc
  | FuncOf (outs : list outType).

(** Modelled from the spec: [util.IsFuncType], [util.ReturnNothing] and
    [util.ReturnOnlyError] of spring-core are not among the sources. The
    specification has [Go] take a [func()] and [Invoke] accept only
    functions returning nothing or returning only an error. *)
Definition IsFuncType (t : fnType) : bool :=
  match t with FuncOf _ => true | NotFunc => false end.

Definition ReturnNothing (t : fnType) : bool :=
  match t with FuncOf [] => true | _ => false end.

Definition ReturnOnlyError (t : fnType) : bool :=
  match t with FuncOf [ErrorType] => true | _ => false end.

(** The part of the [Container] that [Go] and its tasks touch: the counter
    of the wait group [wg], and the lines written with [log.Error]. *)
Record Container : Type := mk_Container {
  wg : nat;
  logged : list string
}.

(** [wg.Add(1)] and [wg.Done()] of [sync.WaitGroup]. *)
Definition wg_Add (c : Container) : Container :=
  {| wg := S (wg c); logged := logged c |}.

Definition wg_Done (c : Container) : Container :=
  {| wg := pred (wg c); logged := logged c |}.

(** Modelled from the spec: [log.Error] of spring-core is not among the
    sources; a panic or an error of a task is logged and nothing else
    happens, so [log.Error] adds a line to the log. *)
Definition log_Error (line : string) (c : Container) : Container :=
  {| wg := wg c; logged := (logged c ++ [line])%list |}.

Definition errGoFn : string := "fn should be func()".
Definition errInvokeFn : string := "fn should be func() or func()error".

Section Pandora.

(** The function values and the [arg.Arg] values handed to [Go] and
    [Invoke], and the bound call [r] that [arg.Bind] returns. *)
Variables Fn Arg Callable : Type.
Variable TypeOf : Fn → fnType.

(** Parts of spring-core that are not among the sources, taken as they
    come. [callAfterRefreshing] has no result: it returns or it panics.
    [arg.Bind] and [r.Call] return or panic; [r.Call] returns the output
    values and an error, [None] for [nil]. *)
Variable callAfterRefreshing : Container → result unit.
Variable arg_Bind : Fn → list Arg → result Callable.
Variable Call : Callable → Container → result (list value * option string).

(** The container and the goroutines that [Go] launched and that have
    not finished. *)
Record World : Type := mk_World {
  container : Container;
  goroutines : list Callable
}.

(** [pandora.Go]. It has no result: it returns, with a goroutine
    launched, or it panics. *)
Definition Go (w : World) (fn : Fn) (args : list Arg) : result World :=
  match callAfterRefreshing (container w) with
  | Panics v => Panics v
  | Returns _ =>
      let fnType := TypeOf fn in
      if negb (IsFuncType fnType) || negb (ReturnNothing fnType) then
        Panics errGoFn
      else
        match arg_Bind fn args with
        | Panics v => Panics v
        | Returns r =>
            Returns {| container := wg_Add (container w);
                       goroutines := (goroutines w ++ [r])%list |}
        end
  end.

(** A function body with its deferred calls: the container when it ends
    and the panic in flight, if any. *)
Definition running : Type := Container * option string.

(** The body of the goroutine of [Go] after its two [defer] statements:
    the call, and [log.Error] of a returned error. *)
Definition task_body (r : Callable) (c : Container) : running :=
  match Call r c with
  | Panics v => (c, Some v)
  | Returns (_, Some err) => (log_Error err c, None)
  | Returns (_, None) => (c, None)
  end.

(** The second deferred function: [recover] and [log.Error] of what was
    recovered. *)
Definition deferred_recover (x : running) : running :=
  match x with
  | (c, Some v) => (log_Error v c, None)
  | (c, None) => (c, None)
  end.

(** The first deferred function, which runs last: [p.c.wg.Done()]. *)
Definition deferred_Done (x : running) : running :=
  match x with
  | (c, panic) => (wg_Done c, panic)
  end.

(** The goroutine of [Go] as a whole. *)
Definition goroutine (r : Callable) (c : Container) : running :=
  deferred_Done (deferred_recover (task_body r c)).

(** The process: alive with its world, or brought down by a panic that
    no goroutine recovered. *)
Inductive process : Type :=
  | Alive (w : World)
  | Crashed (v : string).

(** One step of the process: a caller launches a task with [Go], or one
    of the launched goroutines, any of them, runs to its end. A goroutine
    that ends with a panic in flight brings the process down. *)
Inductive step : process → process → Prop :=
  | step_Go w fn args w' :
      Go w fn args = Returns w' →
      step (Alive w) (Alive w')
  | step_task w before r after c' :
      goroutines w = (before ++ r :: after)%list →
      goroutine r (container w) = (c', None) →
      step (Alive w)
        (Alive {| container := c'; goroutines := (before ++ after)%list |})
  | step_crash w before r after c' v :
      goroutines w = (before ++ r :: after)%list →
      goroutine r (container w) = (c', Some v) →
      step (Alive w) (Crashed v).

Definition steps : process → process → Prop := rtc step.

(** The wait group counts the goroutines that have not finished. *)
Definition tracked (w : World) : Prop :=
  wg (container w) = length (goroutines w).

(** [pandora.Invoke]: the call's output values and [nil], or [nil] and an
    error. *)
Definition Invoke (w : World) (fn : Fn) (args : list Arg)
  : result (list value * option string) :=
  match callAfterRefreshing (container w) with
  | Panics v => Panics v
  | Returns _ =>
      let fnType := TypeOf fn in
      let refused := Returns ([], Some errInvokeFn) in
      if IsFuncType fnType then
        if ReturnNothing fnType || ReturnOnlyError fnType then
          match arg_Bind fn args with
          | Panics v => Panics v
          | Returns r =>
              match Call r (container w) with
              | Panics v => Panics v
              | Returns (_, Some err) => Returns ([], Some err)
              | Returns (callResult, None) => Returns (callResult, None)
              end
          end
        else refused
      else refused
  end.

End Pandora.

Arguments mk_World {Callable} container goroutines.
Arguments container {Callable} w.
Arguments goroutines {Callable} w.
Arguments Alive {Callable} w.
Arguments Crashed {Callable} v.
Arguments tracked {Callable} w.

(** ** Concrete inputs *)

(** A list of two elements, an integer and a record with one field. *)
Definition sample_value : value :=
  VSlice [VInt 1; VMap [(VString "b", VString "x")]].

(** Two named data sources, as a decoder returns them under [db]. *)
Definition sample_sources : value :=
  VMap [(VString "one", VMap [(VString "url", VString "x")]);
        (VString "two", VMap [(VString "url", VString "y")])].

(** The type [int] and an [int] obtained with [reflect.ValueOf(3)], which
    is not addressable. *)
Definition type_int : reflect.rtype :=
  reflect.mk_rtype "int" "int" reflect.Int None.

Definition unaddressable_int : reflect.Value :=
  reflect.mk_Value type_int false None.

(** A container on which [callAfterRefreshing] returns, functions given by
    their type, and tasks whose call panics. *)
Definition refreshed (c : Container) : result unit := Returns tt.

Definition bound_task (fn : fnType) (args : list unit) : result nat := Returns 0.

Definition failing_call (r : nat) (c : Container)
  : result (list value * option string) := Panics "boom".

Definition idle : World nat :=
  {| container := {| wg := 0; logged := [] |}; goroutines := [] |}.

(** ** Loading: [Read] and [Load] *)

(** A segment or field name without the byte ['.']. *)
Fixpoint dotless (s : string) : bool :=
  match s with
  | EmptyString => true
  | String c s' => if decide (c = dot) then false else dotless s'
  end.

Section Loading.

(** [cast.ToString], as for the store. *)
Variable ToString : value → string.

(** The registry [readers] of package conf is declared outside the
    sources; it maps a file extension to a reader, which decodes the bytes
    of a file into the entries of a [map[string]interface{}] (listed in
    the order the [range] loop meets them) or fails with an error. *)
Variable readers : gmap string (list Byte.byte → list (string * value) + string).

(** [ioutil.ReadFile] and [filepath.Ext]. *)
Variable ReadFile : string → list Byte.byte + string.
Variable Ext : string → string.

(** The leaf assignments of the entries of a [map[string]interface{}],
    entry after entry. *)
Definition entries_leaves (m : list (string * value)) : list (string * string) :=
  flat_map (λ kv, leaves ToString kv.1 kv.2) m.

(** The method [(p *Properties) Read]: the store afterwards and the error
    returned, [None] for [nil]. *)
Definition Properties_Read (p : gmap string string) (b : list Byte.byte)
  (ext : string) : gmap string string * option string :=
  match readers !! ext with
  | None => (p, Some ("unsupported file type " +:+ ext))
  | Some r =>
      match r b with
      | inr err => (p, Some err)
      | inl m => (fold_left (λ p kv, Set_ ToString kv.1 kv.2 p) m p, None)
      end
  end.

(** The function [Read]: a new property list, or the error. *)
Definition Read (b : list Byte.byte) (ext : string)
  : gmap string string + string :=
  match Properties_Read New b ext with
  | (_, Some err) => inr err
  | (p, None) => inl p
  end.

(** The method [(p *Properties) Load]. *)
Definition Properties_Load (p : gmap string string) (file : string)
  : gmap string string * option string :=
  match ReadFile file with
  | inr err => (p, Some err)
  | inl b => Properties_Read p b (Ext file)
  end.

(** The function [Load]. *)
Definition Load (file : string) : gmap string string + string :=
  match Properties_Load New file with
  | (_, Some err) => inr err
  | (p, None) => inl p
  end.

End Loading.

(** ** Package [gs]: [pandora.Get] and [pandora.Collect] *)

Definition errGetNil : string := "i can't be nil".
Definition errGetPointer : string := "i must be pointer".
Definition errCollectPointer : string := "i must be slice ptr".

Section Beans.

(** [bean.Selector], the tags of the assembly and [toSingletonTag] are
    declared outside the sources; [noSelector] is [bean.Selector("")]. *)
Variables Selector BeanTag : Type.
Variable noSelector : Selector.
Variable toSingletonTag : Selector → BeanTag.
Variable callAfterRefreshing : Container → result unit.

(** [getArg] and [GetOption] of package gs, and [Use]. *)
Record beanArg : Type := mk_beanArg { selector : Selector }.

Definition UseOption : Type := beanArg → beanArg.

Definition Use (s : Selector) : UseOption := λ _, {| selector := s |}.

(** How [pandora.Get] and [pandora.Collect] end: with an error of their
    own, with the call of [getBean] or of [collectBeans] on the assembly
    (neither is among the sources) whose result they return, or with a
    panic. *)
Inductive beanResult : Type :=
  | BeanError (msg : string)
  | CallGetBean (tag : BeanTag) (v : reflect.Value)
  | CallCollectBeans (beanTags : list BeanTag) (v : reflect.Value)
  | BeanPanics (v : string).

(** [i == nil] for the argument of [pandora.Get]: the nil interface, whose
    [reflect.ValueOf] is the zero Value. *)
Definition is_nil (i : target) : bool :=
  match i with
  | Plain reflect.zero => true
  | _ => false
  end.

(** [reflect.TypeOf(i).Kind()] and [reflect.ValueOf(i).Kind()]: a
    [reflect.Value] held in the interface is a struct. *)
Definition kind_of_target (i : target) : reflect.Kind :=
  match i with
  | ReflectValue _ => reflect.Struct
  | Plain v => reflect.Kind_of v
  end.

(** [reflect.ValueOf(i).Elem()] for an [i] of kind pointer. *)
Definition elem_of_target (i : target) : reflect.Value :=
  match i with
  | ReflectValue _ => reflect.zero
  | Plain v => reflect.Elem v
  end.

(** [pandora.Get]. *)
Definition pandora_Get (c : Container) (i : target) (opts : list UseOption)
  : beanResult :=
  if is_nil i then BeanError errGetNil
  else
    match callAfterRefreshing c with
    | Panics v => BeanPanics v
    | Returns _ =>
        if decide (kind_of_target i ≠ reflect.Ptr) then BeanError errGetPointer
        else
          let a := fold_left (λ a (opt : UseOption), opt a) opts
                     {| selector := noSelector |} in
          CallGetBean (toSingletonTag (selector a)) (elem_of_target i)
    end.

(** The loop of [pandora.Collect] that fills [tag.beanTags]. *)
Definition collect_tags (selectors : list Selector) : list BeanTag :=
  fold_left (λ beanTags s, (beanTags ++ [toSingletonTag s])%list) selectors [].

(** [pandora.Collect]. *)
Definition pandora_Collect (c : Container) (i : target)
  (selectors : list Selector) : beanResult :=
  match callAfterRefreshing c with
  | Panics v => BeanPanics v
  | Returns _ =>
      if decide (kind_of_target i ≠ reflect.Ptr) then BeanError errCollectPointer
      else CallCollectBeans (collect_tags selectors) (elem_of_target i)
  end.

End Beans.

Arguments selector {Selector} b.
Arguments Use {Selector} s.
Arguments BeanError {BeanTag} msg.
Arguments CallGetBean {BeanTag} tag v.
Arguments CallCollectBeans {BeanTag} beanTags v.
Arguments BeanPanics {BeanTag} v.

(** ** Package [web]: the status line of a recorded response *)

(** A text without the byte [c]. *)
Fixpoint lacks (c : ascii) (s : string) : bool :=
  match s with
  | EmptyString => true
  | String d s' => if decide (d = c) then false else lacks c s'
  end.

(** The line end ["\r\n"]. *)
Definition CRLF : string := String "013" (String "010" EmptyString).

(** [writeStatusLine]: the buffer after the writes. [code] is written in
    decimal with [strconv.AppendInt]; [http.StatusText] is the table of
    the Go library, a function from codes to texts. *)
Definition writeStatusLine (StatusText : Z → string) (buf : string)
  (is11 : bool) (code : Z) : string :=
  let buf := if is11 then buf +:+ "HTTP/1.1 " else buf +:+ "HTTP/1.0 " in
  let text := StatusText code in
  let buf := buf +:+ pretty code in
  let buf := buf +:+ " " in
  let buf := buf +:+ text in
  buf +:+ CRLF.

(** ** Further concrete inputs *)

(** A registry with a reader that decodes every file into one entry and a
    reader that fails. *)
Definition sample_readers
  : gmap string (list Byte.byte → list (string * value) + string) :=
  <[".one" := λ _, inl [("a", VInt 1)]]> (<[".bad" := λ _, inr "broken"]> ∅).

(** A pointer to an [int] variable, as [reflect.ValueOf(&x)] gives it. *)
Definition pointer_to_int : reflect.Value :=
  reflect.mk_Value
    (reflect.mk_rtype "" "*int" reflect.Ptr (Some type_int)) false
    (Some (reflect.mk_Value type_int true None)).

(** A call that returns no value and no error. *)
Definition quiet_call (r : nat) (c : Container)
  : result (list value * option string) := Returns ([], None).

(** * Properties of the flat store *)

Section Flattening.

Variable ToString : value → string.

Local Abbreviation Set_ := (Set_ ToString).
Local Abbreviation leaf := (leaf ToString).
Local Abbreviation leaves := (leaves ToString).

Lemma Set_VMap key es m :
  Set_ key (VMap es) m = Set_fields ToString key es m.
Proof.
  unfold Set_fields. simpl. revert m.
  induction es as [|[k v] es IH]; intros m; [done|]. by rewrite IH.
Qed.

Lemma Set_elems_eq key xs : ∀ i m,
  (fix loop (i : nat) (xs : list value) (m : gmap string string) :=
     match xs with
     | [] => m
     | subValue :: xs' => loop (S i) xs' (Set_ (indexKey key i) subValue m)
     end) i xs m = Set_elems ToString key i xs m.
Proof. induction xs as [|x xs IH]; intros i m; [done|]. simpl. by rewrite IH. Qed.

Lemma Set_VArray key xs m :
  Set_ key (VArray xs) m = Set_elems ToString key 0 xs m.
Proof. simpl. apply Set_elems_eq. Qed.

Lemma Set_VSlice key xs m :
  Set_ key (VSlice xs) m = Set_elems ToString key 0 xs m.
Proof. simpl. apply Set_elems_eq. Qed.

Lemma leaves_VMap key es :
  leaves key (VMap es) = leaves_fields ToString key es.
Proof.
  unfold leaves_fields. simpl.
  induction es as [|[k v] es IH]; [done|]. simpl. by rewrite IH.
Qed.

Lemma leaves_elems_eq key xs : ∀ i,
  (fix loop (i : nat) (xs : list value) :=
     match xs with
     | [] => []
     | x :: xs' => (leaves (indexKey key i) x ++ loop (S i) xs')%list
     end) i xs = leaves_elems ToString key i xs.
Proof. induction xs as [|x xs IH]; intros i; [done|]. simpl. by rewrite IH. Qed.

Lemma leaves_VArray key xs :
  leaves key (VArray xs) = leaves_elems ToString key 0 xs.
Proof. simpl. apply leaves_elems_eq. Qed.

Lemma leaves_VSlice key xs :
  leaves key (VSlice xs) = leaves_elems ToString key 0 xs.
Proof. simpl. apply leaves_elems_eq. Qed.

Lemma assign_app l1 l2 m : assign (l1 ++ l2) m = assign l2 (assign l1 m).
Proof. apply fold_left_app. Qed.

(** [Set] writes the leaf assignments of the value, in traversal order. *)
Lemma Set_assign val : ∀ key m, Set_ key val m = assign (leaves key val) m.
Proof.
  induction val as [|b|z|str|t|es IH|xs IH|xs IH] using value_nested_ind;
    intros key m; try done.
  - rewrite Set_VMap, leaves_VMap. unfold Set_fields, leaves_fields.
    revert m. induction IH as [|[k v] es Hv _ IHes]; intros m; [done|].
    simpl in *. by rewrite assign_app, <- Hv, IHes.
  - rewrite Set_VArray, leaves_VArray. generalize 0. intros i.
    revert i m. induction IH as [|x xs Hx _ IHxs]; intros i m; [done|].
    simpl. by rewrite assign_app, <- Hx, IHxs.
  - rewrite Set_VSlice, leaves_VSlice. generalize 0. intros i.
    revert i m. induction IH as [|x xs Hx _ IHxs]; intros i m; [done|].
    simpl. by rewrite assign_app, <- Hx, IHxs.
Qed.

Lemma elem_of_leaves_elems key xs p s : ∀ i,
  (p, s) ∈ leaves_elems ToString key i xs ↔
  ∃ j x, xs !! j = Some x ∧ (p, s) ∈ leaves (indexKey key (i + j)) x.
Proof.
  induction xs as [|x xs IH]; intros i; simpl.
  - split; [by intros ?%elem_of_nil|]. by intros (j & y & ? & _).
  - rewrite elem_of_app, IH. split.
    + intros [H|(j & y & Hj & H)].
      * exists 0, x. by rewrite Nat.add_0_r.
      * exists (S j), y. by rewrite Nat.add_succ_r.
    + intros ([|j] & y & Hj & H); simpl in Hj.
      * left. injection Hj as ->. by rewrite Nat.add_0_r in H.
      * right. exists j, y. by rewrite Nat.add_succ_r in H.
Qed.

(** The list [leaves] holds exactly the leaves of the specification. *)
Lemma leaf_leaves val : ∀ key p s, leaf key val p s ↔ (p, s) ∈ leaves key val.
Proof.
  induction val as [|b|z|str|t|es IH|xs IH|xs IH] using value_nested_ind;
    intros key p s.
  1-5: (split;
        [inversion 1; subst; simpl; by apply list_elem_of_singleton
        |simpl; intros [= -> ->]%list_elem_of_singleton; by constructor]).
  - rewrite leaves_VMap. unfold leaves_fields. rewrite list_elem_of_In, in_flat_map.
    rewrite Forall_forall in IH. split.
    + inversion 1 as [| ? ? k v ? ? Hin Hleaf | |]; subst; [done|].
      exists (k, v). split; [by apply list_elem_of_In|].
      apply list_elem_of_In. by apply (IH (k, v)).
    + intros ([k v] & Hin%list_elem_of_In & H%list_elem_of_In).
      eapply leaf_field; [done|]. by apply (IH (k, v)).
  - rewrite leaves_VArray, elem_of_leaves_elems.
    rewrite Forall_forall in IH. split.
    + inversion 1 as [| | ? ? i x ? ? Hi Hleaf |]; subst; [done|].
      exists i, x. split; [done|]. apply IH; [|done].
      by eapply list_elem_of_lookup_2.
    + intros (j & x & Hj & H). eapply leaf_array; [done|].
      apply IH; [by eapply list_elem_of_lookup_2|done].
  - rewrite leaves_VSlice, elem_of_leaves_elems.
    rewrite Forall_forall in IH. split.
    + inversion 1 as [| | | ? ? i x ? ? Hi Hleaf]; subst; [done|].
      exists i, x. split; [done|]. apply IH; [|done].
      by eapply list_elem_of_lookup_2.
    + intros (j & x & Hj & H). eapply leaf_slice; [done|].
      apply IH; [by eapply list_elem_of_lookup_2|done].
Qed.

Lemma assign_union l : ∀ m, assign l m = list_to_map (reverse l) ∪ m.
Proof.
  induction l as [|[k v] l IH]; intros m; simpl.
  - by rewrite (left_id_L ∅ (∪)).
  - unfold assign in *. simpl. rewrite IH, reverse_cons, list_to_map_app. simpl.
    rewrite <- (assoc_L (∪)). f_equal.
    by rewrite insert_empty, <- insert_union_singleton_l.
Qed.

Lemma assign_idemp l m : assign l (assign l m) = assign l m.
Proof. by rewrite !assign_union, (assoc_L (∪)), (idemp_L (∪)). Qed.

Lemma assign_lookup_notin l k : ∀ m, k ∉ l.*1 → assign l m !! k = m !! k.
Proof.
  induction l as [|[k' v] l IH]; intros m Hk; [done|].
  apply not_elem_of_cons in Hk as [Hne Hk]. unfold assign in *. simpl in *.
  rewrite IH by done. by rewrite lookup_insert_ne.
Qed.

Lemma assign_lookup_in l k : ∀ m,
  k ∈ l.*1 → ∃ s, (k, s) ∈ l ∧ assign l m !! k = Some s.
Proof.
  induction l as [|[k' v] l IH]; intros m Hk; [by apply elem_of_nil in Hk|].
  unfold assign in *. simpl in *.
  destruct (decide (k ∈ l.*1)) as [Hin|Hnotin].
  - destruct (IH (<[k':=v]> m) Hin) as (s & Hs & Hlook).
    exists s. split; [by apply list_elem_of_further|done].
  - apply elem_of_cons in Hk as [->|Hk]; [|done].
    exists v. split; [by apply list_elem_of_here|].
    rewrite (assign_lookup_notin l k' _ Hnotin). apply lookup_insert_eq.
Qed.

Lemma leaf_key_in key val p s : leaf key val p s → p ∈ (leaves key val).*1.
Proof.
  intros H%leaf_leaves. apply list_elem_of_fmap. by exists (p, s).
Qed.

Lemma leaf_scalar_inv key val p s :
  scalar val = true → leaf key val p s → p = key ∧ s = ToString val.
Proof. intros Hs Hl. by inversion Hl; subst. Qed.

(** C1: [Set] flattens a value into its leaves. Every leaf that the
    decomposition reaches (fields under [key.field], elements under
    [key[i]], down to the scalars) is stored under its key as a string
    representation of a scalar reached at that key, which is the leaf's
    own when no other leaf has the same key; a scalar is stored under
    [key] itself whatever the store held there; the keys that are no leaf
    keep what the store held; and setting the same value again gives the
    same store. *)
Theorem Set_flattens key val m :
  (∀ p s, leaf key val p s →
     ∃ s', leaf key val p s' ∧ Set_ key val m !! p = Some s') ∧
  (∀ p s, leaf key val p s → (∀ s', leaf key val p s' → s' = s) →
     Set_ key val m !! p = Some s) ∧
  (scalar val = true → Set_ key val m = <[key := ToString val]> m) ∧
  (∀ p, (∀ s, ¬ leaf key val p s) → Set_ key val m !! p = m !! p) ∧
  Set_ key val (Set_ key val m) = Set_ key val m.
Proof.
  assert (Hsome : ∀ p s, leaf key val p s →
            ∃ s', leaf key val p s' ∧ Set_ key val m !! p = Some s').
  { intros p s Hl. rewrite Set_assign.
    destruct (assign_lookup_in (leaves key val) p m) as (s' & Hs' & Hlook).
    - by eapply leaf_key_in.
    - exists s'. split; [by apply leaf_leaves|done]. }
  repeat split.
  - exact Hsome.
  - intros p s Hl Huniq. destruct (Hsome p s Hl) as (s' & Hl' & ->).
    by rewrite (Huniq s' Hl').
  - intros Hs. by destruct val.
  - intros p Hno. rewrite Set_assign. apply assign_lookup_notin.
    intros ([p' s] & Hp & Hin)%list_elem_of_fmap. simpl in Hp. subst p'.
    by apply (Hno s), leaf_leaves.
  - rewrite !Set_assign. apply assign_idemp.
Qed.

End Flattening.

(** * Facts about the string functions *)

Lemma app_nil_l_s (s : string) : "" +:+ s = s.
Proof. reflexivity. Qed.

Lemma app_cons_s c (p s : string) : String c p +:+ s = String c (p +:+ s).
Proof. reflexivity. Qed.

Lemma app_eq_nil_s (a b : string) : a +:+ b = "" → a = "" ∧ b = "".
Proof. by destruct a. Qed.

Lemma app_assoc_s (a b c : string) : (a +:+ b) +:+ c = a +:+ (b +:+ c).
Proof. induction a as [|x a IH]; [done|]. by rewrite !app_cons_s, IH. Qed.

Lemma app_nil_r_s (a : string) : a +:+ "" = a.
Proof. induction a as [|x a IH]; [done|]. by rewrite app_cons_s, IH. Qed.

Lemma app_length_s (a b : string) :
  String.length (a +:+ b) = String.length a + String.length b.
Proof. induction a as [|x a IH]; [done|]. rewrite app_cons_s. simpl. by rewrite IH. Qed.

Lemma HasPrefix_app p s : HasPrefix (p +:+ s) p = true.
Proof.
  induction p as [|c p IH]; [reflexivity|]. rewrite app_cons_s. simpl.
  by rewrite decide_True.
Qed.

Lemma skip_app p s : skip (String.length p) (p +:+ s) = s.
Proof. induction p as [|c p IH]; [reflexivity|]. by rewrite app_cons_s. Qed.

Lemma TrimPrefix_app p s : TrimPrefix (p +:+ s) p = s.
Proof. unfold TrimPrefix. by rewrite HasPrefix_app, skip_app. Qed.

Lemma HasPrefix_true s : ∀ p,
  HasPrefix s p = true → s = p +:+ skip (String.length p) s.
Proof.
  induction s as [|d s IH]; intros [|c p]; simpl; try done.
  case_decide; [|done]. subst. intros H. rewrite app_cons_s. f_equal. by apply IH.
Qed.

Lemma HasPrefix_TrimPrefix s p :
  HasPrefix s p = true → s = p +:+ TrimPrefix s p.
Proof. intros H. unfold TrimPrefix. rewrite H. by apply HasPrefix_true. Qed.

Lemma TrimPrefix_none s p : HasPrefix s p = false → TrimPrefix s p = s.
Proof. intros H. unfold TrimPrefix. by rewrite H. Qed.

(** * Reading the store *)

Section Reading.

Variable ToString : value → string.

Lemma fold_Def ds (a : getArg) :
  def (fold_left (λ arg (opt : GetOption), opt arg) (Def <$> ds) a)
  = default (def a) (last ds).
Proof.
  revert a. induction ds as [|d ds IH]; intros a; [done|].
  rewrite fmap_cons. cbn [fold_left]. rewrite IH, last_cons.
  by destruct (last ds).
Qed.

Lemma Get_present key opts m s :
  m !! TrimPrefix key (rootKey +:+ ".") = Some s → Get ToString key opts m = Some s.
Proof. intros H. unfold Get. by rewrite H. Qed.

Lemma Get_absent key ds m :
  m !! TrimPrefix key (rootKey +:+ ".") = None →
  Get ToString key (Def <$> ds) m =
    match default VNil (last ds) with
    | VNil => None
    | d => Some (ToString d)
    end.
Proof. intros H. unfold Get. by rewrite H, fold_Def. Qed.

(** C2, as the code has it: [Get] drops one leading ["$."] from the key
    and looks the rest up as it is written. A stored string is returned;
    for an absent key the last default given with [Def] is returned as a
    string when it is not [nil]; with no default, or with the default
    [nil], the result is [nil], which no string equals. *)
Theorem Get_reads key ds m :
  let k := TrimPrefix key (rootKey +:+ ".") in
  (HasPrefix key "$." = false → k = key) ∧
  (TrimPrefix ("$." +:+ key) (rootKey +:+ ".") = key) ∧
  (∀ s, m !! k = Some s → Get ToString key (Def <$> ds) m = Some s) ∧
  (∀ d, m !! k = None → last ds = Some d → d ≠ VNil →
     Get ToString key (Def <$> ds) m = Some (ToString d)) ∧
  (m !! k = None → last ds = None ∨ last ds = Some VNil →
     Get ToString key (Def <$> ds) m = None) ∧
  (Get ToString key (Def <$> ds) m = None →
     m !! k = None ∧ (last ds = None ∨ last ds = Some VNil)).
Proof.
  intros k. subst k. split_and!.
  - apply TrimPrefix_none.
  - apply (TrimPrefix_app "$." key).
  - intros s. apply Get_present.
  - intros d Habs Hlast Hd. rewrite Get_absent, Hlast by done. by destruct d.
  - intros Habs [Hlast|Hlast]; by rewrite Get_absent, Hlast.
  - destruct (m !! TrimPrefix key (rootKey +:+ ".")) as [s|] eqn:E.
    { by rewrite (Get_present _ _ _ s). }
    rewrite Get_absent by done. intros H. split; [done|].
    destruct (last ds) as [[]|]; simpl in H; try done; auto.
Qed.

(** C9: setting an empty map, slice or array stores nothing. The store is
    the one before; a key that [Get] found absent is still absent; every
    key that [Keys] lists afterwards was stored before; and on a new
    store [Get] of the key is [nil] and [Keys] is empty. *)
Theorem Set_empty_composite key v m :
  v = VMap [] ∨ v = VArray [] ∨ v = VSlice [] →
  Set_ ToString key v m = m ∧
  (∀ k, Get ToString k [] m = None → Get ToString k [] (Set_ ToString key v m) = None) ∧
  (∀ ks k, KeysOf (Set_ ToString key v m) ks → k ∈ ks → is_Some (m !! k)) ∧
  Get ToString key [] (Set_ ToString key v New) = None ∧
  (∀ sub, Get ToString (key +:+ sub) [] (Set_ ToString key v New) = None) ∧
  (∀ ks, KeysOf (Set_ ToString key v New) ks → ks = []).
Proof.
  intros Hv.
  assert (Hsame : ∀ m', Set_ ToString key v m' = m') by (by destruct Hv as [->|[->| ->]]).
  rewrite !Hsame. split_and!; try done.
  - intros ks k Hks Hk. unfold KeysOf, Keys in Hks. rewrite Hks in Hk.
    apply list_elem_of_fmap in Hk as ([k' s] & -> & Hin).
    apply elem_of_map_to_list in Hin. by exists s.
  - intros ks Hks. unfold KeysOf, Keys, New in Hks.
    rewrite map_to_list_empty in Hks. by apply Permutation_nil_r in Hks.
Qed.

End Reading.

(** * Binding *)

Lemma Bind_Plain_not_pointer p v opts :
  reflect.Kind_of v ≠ reflect.Ptr →
  Bind p (Plain v) opts = ReturnError errNotPointer.
Proof. intros H. unfold Bind. by rewrite decide_True. Qed.

Lemma Bind_ReflectValue p v opts :
  Bind p (ReflectValue v) opts =
    match reflect.Type_of v with
    | None => PanicZeroValue
    | Some t =>
        CallBind p v
          (tag (fold_left (λ arg (opt : BindOption), opt arg) opts
                  (Key rootKey {| tag := EmptyString |})))
          {| path := pathOf t |}
    end.
Proof. reflexivity. Qed.

Lemma Bind_ReturnError_inv p i opts msg :
  Bind p i opts = ReturnError msg →
  msg = errNotPointer ∧ ∃ v, i = Plain v ∧ reflect.Kind_of v ≠ reflect.Ptr.
Proof.
  destruct i as [v|v]; unfold Bind.
  - by destruct (reflect.Type_of v).
  - case_decide as Hk.
    + intros [= <-]. split; [done|]. by exists v.
    + by destruct (reflect.Type_of (reflect.Elem v)).
Qed.

(** C7, as the code has it: an argument of [Bind] that is not a
    [reflect.Value] and whose kind is not pointer is refused at once:
    [Bind] returns its error before the binder is called, so that whatever
    the binder is, the memory is the one before. *)
Theorem Bind_rejects_non_pointer p v opts :
  reflect.Kind_of v ≠ reflect.Ptr →
  Bind p (Plain v) opts = ReturnError errNotPointer ∧
  ∀ (Mem : Type) bind (mem : Mem),
    run_Bind bind (Bind p (Plain v) opts) mem = Some (mem, Some errNotPointer).
Proof.
  intros H. split; [by apply Bind_Plain_not_pointer|].
  intros Mem bind mem. by rewrite Bind_Plain_not_pointer.
Qed.

(** C10: a [reflect.Value] handed to [Bind] is not checked. [Bind] never
    returns an error of its own for it; it goes on to the binder with the
    value as it is, addressable or not (or panics in [v.Type()] for the
    zero Value); and the error is returned exactly for the arguments that
    are no [reflect.Value] and whose kind is not pointer. *)
Theorem Bind_reflect_Value_unchecked p v opts :
  (∀ msg, Bind p (ReflectValue v) opts ≠ ReturnError msg) ∧
  (∀ t addressable pointee, v = reflect.mk_Value t addressable pointee →
     ∃ tag, Bind p (ReflectValue v) opts = CallBind p v tag {| path := pathOf t |}) ∧
  (v = reflect.zero → Bind p (ReflectValue v) opts = PanicZeroValue) ∧
  (∀ i msg, Bind p i opts = ReturnError msg ↔
     msg = errNotPointer ∧ ∃ v', i = Plain v' ∧ reflect.Kind_of v' ≠ reflect.Ptr).
Proof.
  split_and!.
  - intros msg H. apply Bind_ReturnError_inv in H as (_ & v' & [=] & _).
  - intros t a ptr ->. rewrite Bind_ReflectValue. simpl. by eexists.
  - by intros ->.
  - intros i msg. split; [apply Bind_ReturnError_inv|].
    intros (-> & v' & -> & Hk). by apply Bind_Plain_not_pointer.
Qed.

(** * The task primitives *)

Section Tasks.

Variables Fn Arg Callable : Type.
Variable TypeOf : Fn → fnType.
Variable callAfterRefreshing : Container → result unit.
Variable arg_Bind : Fn → list Arg → result Callable.
Variable Call : Callable → Container → result (list value * option string).

Local Abbreviation Go_ := (Go Fn Arg Callable TypeOf callAfterRefreshing arg_Bind).
Local Abbreviation Invoke_ :=
  (Invoke Fn Arg Callable TypeOf callAfterRefreshing arg_Bind Call).
Local Abbreviation goroutine_ := (goroutine Callable Call).
Local Abbreviation step_ :=
  (step Fn Arg Callable TypeOf callAfterRefreshing arg_Bind Call).
Local Abbreviation steps_ :=
  (steps Fn Arg Callable TypeOf callAfterRefreshing arg_Bind Call).

(** What a goroutine of [Go] leaves behind, by the way its call ends. *)
Lemma goroutine_ends r c :
  goroutine_ r c =
    match Call r c with
    | Panics v => (wg_Done (log_Error v c), None)
    | Returns (_, Some err) => (wg_Done (log_Error err c), None)
    | Returns (_, None) => (wg_Done c, None)
    end.
Proof.
  unfold goroutine, task_body. by destruct (Call r c) as [[outs [err|]]|v].
Qed.

Lemma goroutine_no_panic r c : (goroutine_ r c).2 = None.
Proof.
  rewrite goroutine_ends. by destruct (Call r c) as [[outs [err|]]|v].
Qed.

Lemma goroutine_wg r c : wg (goroutine_ r c).1 = pred (wg c).
Proof.
  rewrite goroutine_ends. by destruct (Call r c) as [[outs [err|]]|v].
Qed.

Lemma Go_Returns w fn args w' :
  Go_ w fn args = Returns w' →
  ∃ r, arg_Bind fn args = Returns r ∧
       w' = {| container := wg_Add (container w);
               goroutines := (goroutines w ++ [r])%list |}.
Proof.
  unfold Go. destruct (callAfterRefreshing (container w)); [|done].
  destruct (negb _ || negb _); [done|].
  destruct (arg_Bind fn args) as [r|]; [|done].
  intros [= <-]. by exists r.
Qed.

Lemma step_tracked w p :
  tracked w → step_ (Alive w) p → ∃ w', p = Alive w' ∧ tracked w'.
Proof.
  unfold tracked. intros Hw Hstep.
  inversion Hstep as [? fn args w' HGo|? before r after c' Hg Hrun
                     |? before r after c' v Hg Hrun]; subst.
  - apply Go_Returns in HGo as (r & _ & ->). eexists. split; [done|].
    simpl. rewrite length_app, Hw. simpl. lia.
  - eexists. split; [done|]. simpl.
    pose proof (goroutine_wg r (container w)) as Hwg. rewrite Hrun in Hwg.
    simpl in Hwg. rewrite Hwg, Hw, Hg, !length_app. simpl. lia.
  - pose proof (goroutine_no_panic r (container w)) as Hno.
    by rewrite Hrun in Hno.
Qed.

Lemma steps_tracked w p :
  tracked w → steps_ (Alive w) p → ∃ w', p = Alive w' ∧ tracked w'.
Proof.
  intros Hw Hsteps. remember (Alive w) as q eqn:Hq.
  revert w Hw Hq. induction Hsteps as [q|q1 q2 q3 Hstep _ IH]; intros w Hw ->.
  - by exists w.
  - destruct (step_tracked w q2 Hw Hstep) as (w2 & -> & Hw2). by apply (IH w2).
Qed.

(** C6, as the code has it: on a container that [callAfterRefreshing]
    lets through, [Invoke] returns the precondition error to its caller
    when [fn] is no function or has another signature than [func()] and
    [func() error]; [Go], which has no result, raises its precondition
    error as a panic of the caller when [fn] is no [func()], before any
    goroutine is launched; and a panic inside the goroutine of a launched
    task is recovered and logged. *)
Theorem precondition_errors w fn args :
  callAfterRefreshing (container w) = Returns tt →
  (IsFuncType (TypeOf fn) = false ∨
   (ReturnNothing (TypeOf fn) = false ∧ ReturnOnlyError (TypeOf fn) = false) →
     Invoke_ w fn args = Returns ([], Some errInvokeFn)) ∧
  (IsFuncType (TypeOf fn) = false ∨ ReturnNothing (TypeOf fn) = false →
     Go_ w fn args = Panics errGoFn) ∧
  (∀ r c v, Call r c = Panics v →
     goroutine_ r c = (wg_Done (log_Error v c), None)).
Proof.
  intros Href. split_and!.
  - intros H. unfold Invoke. rewrite Href.
    destruct H as [->|[-> ->]]; [done|]. by destruct (IsFuncType (TypeOf fn)).
  - intros H. unfold Go. rewrite Href.
    by destruct H as [->| ->]; [|rewrite orb_true_r].
  - intros r c v H. by rewrite goroutine_ends, H.
Qed.

(** C8: the goroutine of a task never ends with a panic in flight; a
    panic of the task's call is recovered and written to the log. From a
    world whose wait group counts its unfinished goroutines, whatever
    tasks are launched and in whatever order the goroutines run, the
    process stays alive and the wait group keeps counting the unfinished
    goroutines, so that it is at zero only when all of them are done. A
    goroutine that runs to its end leaves the others in place, and [Go]
    adds one to the wait group for the goroutine it launches. *)
Theorem Go_tasks_supervised w p :
  tracked w → steps_ (Alive w) p →
  (∃ w', p = Alive w' ∧ tracked w' ∧
         (wg (container w') = 0 → goroutines w' = [])) ∧
  (∀ r c, (goroutine_ r c).2 = None) ∧
  (∀ r c v, Call r c = Panics v →
     logged (goroutine_ r c).1 = (logged c ++ [v])%list) ∧
  (∀ w1 before r after, goroutines w1 = (before ++ r :: after)%list →
     step_ (Alive w1)
       (Alive {| container := (goroutine_ r (container w1)).1;
                 goroutines := (before ++ after)%list |})) ∧
  (∀ w1 fn args w2, Go_ w1 fn args = Returns w2 →
     wg (container w2) = S (wg (container w1)) ∧
     ∃ r, goroutines w2 = (goroutines w1 ++ [r])%list).
Proof.
  intros Hw Hsteps. split_and!.
  - destruct (steps_tracked w p Hw Hsteps) as (w' & -> & Hw').
    exists w'. split_and!; [done..|].
    unfold tracked in Hw'. intros H0. rewrite H0 in Hw'.
    by destruct (goroutines w').
  - apply goroutine_no_panic.
  - intros r c v H. by rewrite goroutine_ends, H.
  - intros w1 before r after Hg. eapply step_task; [done|].
    pose proof (goroutine_no_panic r (container w1)) as Hno.
    by destruct (goroutine_ r (container w1)) as [c' [v|]].
  - intros w1 fn args w2 (r & _ & ->)%Go_Returns. split; [done|]. by exists r.
Qed.

End Tasks.

(** * The placeholder syntax *)

Lemma find_open_length s : ∀ pre after,
  find_open s = Some (pre, after) →
  String.length s = String.length pre + 2 + String.length after.
Proof.
  induction s as [|c s IH]; intros pre after; simpl; [done|].
  destruct s as [|d s']; [done|].
  case_decide.
  - intros [= <- <-]. simpl. lia.
  - destruct (find_open (String d s')) as [[pre' after']|] eqn:E; [|done].
    intros [= <- <-]. specialize (IH _ _ eq_refl). simpl in *. lia.
Qed.

Lemma find_close_length_bounded n : ∀ s depth content rest,
  (String.length s ≤ n)%nat →
  find_close depth s = Some (content, rest) →
  String.length s = String.length content + 1 + String.length rest.
Proof.
  induction n as [|n IH]; intros [|c s] depth content rest Hn; simpl in *;
    try done; try lia.
  case_decide.
  - destruct depth as [|depth'].
    + intros [= <- <-]. simpl. lia.
    + destruct (find_close depth' s) as [[content' rest']|] eqn:E; [|done].
      intros [= <- <-]. apply IH in E; [|lia]. simpl. lia.
  - destruct s as [|d s']; [done|]. case_decide.
    + destruct (find_close (S depth) s') as [[content' rest']|] eqn:E; [|done].
      intros [= <- <-]. apply IH in E; [|simpl in *; lia]. simpl. lia.
    + destruct (find_close depth (String d s')) as [[content' rest']|] eqn:E; [|done].
      intros [= <- <-]. apply IH in E; [|simpl in *; lia]. simpl in *. lia.
Qed.

Lemma find_close_length s depth content rest :
  find_close depth s = Some (content, rest) →
  String.length s = String.length content + 1 + String.length rest.
Proof. by apply (find_close_length_bounded (String.length s)). Qed.

Lemma split_def_length s : ∀ name d,
  split_def s = (name, Some d) →
  String.length s = String.length name + 2 + String.length d.
Proof.
  induction s as [|c s IH]; intros name d; simpl; [done|].
  destruct s as [|e s']; [done|].
  case_decide.
  - intros [= <- <-]. simpl. lia.
  - destruct (split_def (String e s')) as [name' d'] eqn:E.
    intros [= <- ->]. specialize (IH _ _ eq_refl). simpl in *. lia.
Qed.

(** * The resolver *)

Section Resolving.

Variable ToString : value → string.

Lemma Get_nil name m :
  Get ToString name [] m = m !! TrimPrefix name (rootKey +:+ ".").
Proof. unfold Get. by destruct (m !! _). Qed.

(** One round of the scan. *)
Lemma resolveString_step budget m fuel chain s :
  resolveString ToString budget m (S fuel) chain s =
    match find_open s with
    | None => Done s
    | Some (pre, after) =>
        match find_close 0 after with
        | None => Done s
        | Some (content, rest) =>
            let (name, default) := split_def content in
            let key := TrimPrefix name (rootKey +:+ ".") in
            let? v :=
              (if decide (key ∈ chain) then
                 match default with
                 | Some d => resolveString ToString budget m fuel chain d
                 | None => Fail (ErrReferenceCycle key)
                 end
               else
                 match Get ToString name [] m with
                 | Some val =>
                     match budget with
                     | 0 => Starved
                     | S budget' =>
                         resolveString ToString budget' m
                           (S (String.length val)) (key :: chain) val
                     end
                 | None =>
                     match default with
                     | Some d =>
                         resolveString ToString budget m fuel (key :: chain) d
                     | None => Fail (ErrNotExist key)
                     end
                 end) in
            let? r := resolveString ToString budget m fuel chain rest in
            Done (pre +:+ v +:+ r)
        end
    end.
Proof. by destruct budget. Qed.

Lemma pending_enter m chain key val :
  key ∉ chain → m !! key = Some val →
  pending m chain = S (pending m (key :: chain)).
Proof.
  intros Hk Hm. unfold pending.
  set (X := (dom m ∖ list_to_set chain : gset string)).
  assert (Hin : key ∈ X).
  { apply elem_of_difference. split; [by apply elem_of_dom|].
    by rewrite elem_of_list_to_set. }
  assert (Heq : (dom m ∖ list_to_set (key :: chain) : gset string) = X ∖ {[key]}).
  { apply set_eq. intros x. unfold X.
    rewrite !elem_of_difference, !elem_of_list_to_set, elem_of_cons,
      elem_of_singleton.
    tauto. }
  rewrite Heq, size_difference, size_singleton.
  - assert (size X ≠ 0); [|lia].
    apply size_non_empty_iff. intros HX. rewrite HX in Hin.
    by apply elem_of_empty in Hin.
  - by apply singleton_subseteq_l.
Qed.

Lemma pending_push m chain key :
  (pending m (key :: chain) ≤ pending m chain)%nat.
Proof.
  unfold pending. apply subseteq_size. intros x.
  rewrite !elem_of_difference, !elem_of_list_to_set, elem_of_cons. tauto.
Qed.

(** With a budget for the pending keys and fuel for the text, the
    resolution comes to an end. *)
Lemma resolveString_total m : ∀ budget fuel chain s,
  (pending m chain ≤ budget)%nat → (String.length s < fuel)%nat →
  resolveString ToString budget m fuel chain s ≠ Starved.
Proof.
  induction budget as [budget IHb] using lt_wf_ind.
  induction fuel as [|fuel IHf]; intros chain s Hb Hf; [lia|].
  rewrite resolveString_step.
  destruct (find_open s) as [[pre after]|] eqn:Eo; [|done].
  destruct (find_close 0 after) as [[content rest]|] eqn:Ec; [|done].
  destruct (split_def content) as [name default] eqn:Ed.
  apply find_open_length in Eo. apply find_close_length in Ec.
  assert (Hrest : resolveString ToString budget m fuel chain rest ≠ Starved)
    by (apply IHf; [done|lia]).
  assert (Hdef : ∀ d chain', default = Some d →
            (pending m chain' ≤ budget)%nat →
            resolveString ToString budget m fuel chain' d ≠ Starved).
  { intros d chain' -> Hb'. apply split_def_length in Ed.
    apply IHf; [done|lia]. }
  cbv zeta. set (key := TrimPrefix name (rootKey +:+ ".")).
  assert (Hv : (if decide (key ∈ chain) then
                 match default with
                 | Some d => resolveString ToString budget m fuel chain d
                 | None => Fail (ErrReferenceCycle key)
                 end
               else
                 match Get ToString name [] m with
                 | Some val =>
                     match budget with
                     | 0 => Starved
                     | S budget' =>
                         resolveString ToString budget' m
                           (S (String.length val)) (key :: chain) val
                     end
                 | None =>
                     match default with
                     | Some d =>
                         resolveString ToString budget m fuel (key :: chain) d
                     | None => Fail (ErrNotExist key)
                     end
                 end) ≠ Starved).
  { case_decide as Hk.
    - destruct default as [d|]; [by apply Hdef|done].
    - rewrite Get_nil. fold key. destruct (m !! key) as [val|] eqn:Em.
      + pose proof (pending_enter m chain key val Hk Em) as Hp.
        destruct budget as [|budget']; [lia|].
        apply IHb; lia.
      + destruct default as [d|]; [|done].
        apply Hdef; [done|]. pose proof (pending_push m chain key). lia. }
  destruct (if decide (key ∈ chain) then _ else _) as [v| |]; simpl; try done.
  by destruct (resolveString ToString budget m fuel chain rest).
Qed.

Lemma Resolve_total m s : Resolve ToString m s ≠ Starved.
Proof.
  unfold Resolve. apply resolveString_total; [|lia].
  unfold pending. rewrite <- size_dom. apply subseteq_size. intros x.
  rewrite elem_of_difference. tauto.
Qed.

(** ** Parsing references to plain names *)

Lemma plain_cons c n :
  plain (String c n) = true →
  c ≠ "$"%char ∧ c ≠ "{"%char ∧ c ≠ "}"%char ∧ c ≠ ":"%char ∧ plain n = true.
Proof. simpl. case_decide; [done|]. intros ->. tauto. Qed.

Lemma find_open_reference t : find_open ("${" +:+ t) = Some ("", t).
Proof. reflexivity. Qed.

Lemma find_open_literal pre : ∀ t,
  literal pre = true → find_open (pre +:+ "${" +:+ t) = Some (pre, t).
Proof.
  induction pre as [|c pre IH]; intros t Hpre; [apply find_open_reference|].
  simpl in Hpre. case_decide as Hc; [done|]. rewrite app_cons_s. simpl.
  destruct (pre +:+ "${" +:+ t) as [|d s''] eqn:E.
  { by apply app_eq_nil_s in E as [_ ?]. }
  rewrite decide_False by tauto. rewrite <- E, IH by done. done.
Qed.

Lemma find_close_plain n : ∀ depth t,
  plain n = true →
  find_close depth (n +:+ t) =
    match find_close depth t with
    | Some (content, rest) => Some (n +:+ content, rest)
    | None => None
    end.
Proof.
  induction n as [|c n IH]; intros depth t Hn.
  - rewrite app_nil_l_s. by destruct (find_close depth t) as [[??]|].
  - apply plain_cons in Hn as (H1 & H2 & H3 & H4 & Hn).
    specialize (IH depth t Hn). rewrite app_cons_s. simpl.
    rewrite decide_False by done.
    destruct (n +:+ t) as [|d s''] eqn:E.
    + simpl in IH. by destruct (find_close depth t) as [[??]|].
    + rewrite decide_False by tauto. rewrite IH.
      by destruct (find_close depth t) as [[??]|].
Qed.

Lemma find_close_here rest : find_close 0 ("}" +:+ rest) = Some ("", rest).
Proof. reflexivity. Qed.

Lemma find_close_reference a rest :
  plain a = true → find_close 0 (a +:+ "}" +:+ rest) = Some (a, rest).
Proof.
  intros Ha. rewrite find_close_plain, find_close_here by done.
  by rewrite app_nil_r_s.
Qed.

Lemma find_close_reference_or a b rest :
  plain a = true → plain b = true →
  find_close 0 (a +:+ ":=" +:+ reference b +:+ "}" +:+ rest)
  = Some (a +:+ ":=" +:+ reference b, rest).
Proof.
  intros Ha Hb. rewrite find_close_plain by done.
  assert (H : find_close 1 (b +:+ "}" +:+ "}" +:+ rest)
              = Some (b +:+ "}", rest)).
  { rewrite find_close_plain by done. reflexivity. }
  unfold reference.
  change ((":=" +:+ ("${" +:+ b +:+ "}") +:+ "}" +:+ rest))
    with (String ":" (String "=" (String "$" (String "{"
            ((b +:+ "}") +:+ "}" +:+ rest))))).
  rewrite app_assoc_s.
  cbn [find_close]. rewrite !decide_False by (try intros [??]; done).
  rewrite decide_True by done. by rewrite H.
Qed.

Lemma split_def_plain n : ∀ t,
  plain n = true →
  split_def (n +:+ t) = let (name, d) := split_def t in (n +:+ name, d).
Proof.
  induction n as [|c n IH]; intros t Hn.
  - rewrite app_nil_l_s. by destruct (split_def t).
  - apply plain_cons in Hn as (H1 & H2 & H3 & H4 & Hn).
    specialize (IH t Hn). rewrite app_cons_s. simpl.
    destruct (n +:+ t) as [|d s''] eqn:E.
    + apply app_eq_nil_s in E as [-> ->]. reflexivity.
    + rewrite decide_False by tauto. rewrite IH.
      by destruct (split_def t).
Qed.

Lemma split_def_name a : plain a = true → split_def a = (a, None).
Proof.
  intros Ha. rewrite <- (app_nil_r_s a) at 1.
  rewrite split_def_plain by done. simpl. by rewrite app_nil_r_s.
Qed.

Lemma split_def_default a d :
  plain a = true → split_def (a +:+ ":=" +:+ d) = (a, Some d).
Proof.
  intros Ha. rewrite split_def_plain by done.
  change (split_def (":=" +:+ d)) with (EmptyString, Some d).
  cbv iota beta. by rewrite app_nil_r_s.
Qed.

Lemma TrimPrefix_plain a : plain a = true → TrimPrefix a (rootKey +:+ ".") = a.
Proof.
  intros Ha. apply TrimPrefix_none. destruct a as [|c a]; [done|].
  apply plain_cons in Ha as (H1 & _). simpl. by rewrite decide_False.
Qed.

(** ** Cycles *)

Lemma resolve_reference budget m fuel chain pre a post :
  literal pre = true → plain a = true →
  resolveString ToString budget m (S fuel) chain (pre +:+ reference a +:+ post) =
    let? v :=
      (if decide (a ∈ chain) then Fail (ErrReferenceCycle a)
       else match m !! a with
            | Some val =>
                match budget with
                | 0 => Starved
                | S budget' =>
                    resolveString ToString budget' m (S (String.length val))
                      (a :: chain) val
                end
            | None => Fail (ErrNotExist a)
            end) in
    let? r := resolveString ToString budget m fuel chain post in
    Done (pre +:+ v +:+ r).
Proof.
  intros Hpre Ha. rewrite resolveString_step. unfold reference.
  change (("${" +:+ a +:+ "}") +:+ post) with ("${" +:+ ((a +:+ "}") +:+ post)).
  rewrite app_assoc_s, find_open_literal by done.
  rewrite find_close_reference by done.
  rewrite split_def_name by done. cbv zeta.
  by rewrite Get_nil, TrimPrefix_plain.
Qed.

Lemma resolve_reference_or budget m fuel chain pre a b post :
  literal pre = true → plain a = true → plain b = true →
  a ∉ chain → m !! a = None →
  resolveString ToString budget m (S fuel) chain
    (pre +:+ reference_or a (reference b) +:+ post) =
    let? v := resolveString ToString budget m fuel (a :: chain) (reference b) in
    let? r := resolveString ToString budget m fuel chain post in
    Done (pre +:+ v +:+ r).
Proof.
  intros Hpre Ha Hb Hchain Hm. rewrite resolveString_step. unfold reference_or.
  change (("${" +:+ a +:+ ":=" +:+ reference b +:+ "}") +:+ post)
    with ("${" +:+ ((a +:+ ":=" +:+ reference b +:+ "}") +:+ post)).
  rewrite find_open_literal by done.
  replace ((a +:+ ":=" +:+ reference b +:+ "}") +:+ post)
    with (a +:+ ":=" +:+ reference b +:+ "}" +:+ post)
    by (by rewrite !app_assoc_s).
  rewrite find_close_reference_or by done.
  rewrite split_def_default by done. cbv zeta.
  rewrite Get_nil, TrimPrefix_plain by done.
  by rewrite decide_False, Hm.
Qed.

Lemma linked_size m back l :
  NoDup l → linked m l back → (length l ≤ size m)%nat.
Proof.
  intros Hnd Hl. rewrite <- size_dom, <- (size_list_to_set (C:=gset string) l Hnd).
  apply subseteq_size. intros k Hk%elem_of_list_to_set.
  apply elem_of_dom. clear Hnd.
  induction l as [|k' l IH]; [by apply elem_of_nil in Hk|].
  destruct Hl as [(val & Hk' & _) Hl].
  apply elem_of_cons in Hk as [->|Hk]; [by eexists|]. by apply IH.
Qed.

(** Following the links of a ring with the name [a] in the chain ends in
    the reference-cycle error for [a]. *)
Lemma resolve_linked m a : ∀ l chain budget fuel pre post,
  plain a = true → Forall (λ k, plain k = true) l →
  NoDup l → (∀ k, k ∈ l → k ∉ chain) → a ∈ chain →
  linked m l a → (length l ≤ budget)%nat → literal pre = true →
  resolveString ToString budget m (S fuel) chain
    (pre +:+ reference (hd a l) +:+ post)
  = Fail (ErrReferenceCycle a).
Proof.
  induction l as [|k l IH];
    intros chain budget fuel pre post Ha Hl Hnd Hfresh Hin Hlink Hb Hpre.
  - simpl. rewrite resolve_reference by done. by rewrite decide_True.
  - simpl hd. apply Forall_cons in Hl as [Hk Hl].
    apply NoDup_cons in Hnd as [Hkl Hnd].
    destruct Hlink as [(val & Hmk & pre' & post' & Hpre' & ->) Hlink].
    rewrite resolve_reference by done.
    rewrite decide_False by (apply Hfresh; apply list_elem_of_here).
    rewrite Hmk. simpl in Hb. destruct budget as [|budget']; [lia|].
    rewrite IH; try done.
    + intros k' Hk' [->|Hc]%elem_of_cons; [done|].
      by apply (Hfresh k'); [apply list_elem_of_further|].
    + by apply list_elem_of_further.
    + lia.
Qed.

(** C4: the resolution of any string comes to an end, and a cycle of
    references is answered by the reference-cycle error. In a ring of
    stored names of which each is stored with a text that refers to the
    next, and the last with a text that refers to the first, a text that
    refers to a name of the ring gives the error for that name; so does a
    reference to an absent name whose default refers into a chain of
    stored names that leads back to it, as in [Resolve("${a:=${b}}")]
    with [b] stored as ["${a}"]. *)
Theorem Resolve_detects_cycles m :
  (∀ s, Resolve ToString m s ≠ Starved) ∧
  (∀ a l s, NoDup (a :: l) → Forall (λ k, plain k = true) (a :: l) →
     linked m (a :: l) a → refers s a →
     Resolve ToString m s = Fail (ErrReferenceCycle a)) ∧
  (∀ a l pre post, NoDup (a :: l) → Forall (λ k, plain k = true) (a :: l) →
     m !! a = None → linked m l a → literal pre = true →
     Resolve ToString m (pre +:+ reference_or a (reference (hd a l)) +:+ post)
     = Fail (ErrReferenceCycle a)) ∧
  Resolve ToString (<["b" := "${a}"]> New) "${a:=${b}}"
  = Fail (ErrReferenceCycle "a").
Proof.
  split_and!.
  - apply Resolve_total.
  - intros a l s Hnd Hpl Hlink (pre & post & Hpre & ->). unfold Resolve.
    pose proof (linked_size m a (a :: l) Hnd Hlink) as Hsize.
    apply Forall_cons in Hpl as [Ha Hl]. apply NoDup_cons in Hnd as [Hal Hnd].
    destruct Hlink as [(val & Hma & pre' & post' & Hpre' & ->) Hlink].
    rewrite resolve_reference by done.
    rewrite decide_False by apply not_elem_of_nil. rewrite Hma.
    simpl in Hsize. destruct (size m) as [|budget']; [lia|].
    rewrite resolve_linked; try done.
    + intros k Hk ->%list_elem_of_singleton. done.
    + apply list_elem_of_here.
    + lia.
  - intros a l pre post Hnd Hpl Hma Hlink Hpre. unfold Resolve.
    apply Forall_cons in Hpl as [Ha Hl]. apply NoDup_cons in Hnd as [Hal Hnd].
    pose proof (linked_size m a l Hnd Hlink) as Hsize.
    assert (Hhd : plain (hd a l) = true) by (destruct l; [done|by inversion Hl]).
    rewrite resolve_reference_or; try done; [|apply not_elem_of_nil].
    assert (Hlen : ∃ n, String.length
              (pre +:+ reference_or a (reference (hd a l)) +:+ post) = S n).
    { rewrite !app_length_s. unfold reference_or.
      change (String.length ("${" +:+ a +:+ ":=" +:+ reference (hd a l) +:+ "}"))
        with (S (S (String.length (a +:+ ":=" +:+ reference (hd a l) +:+ "}")))).
      eexists. simpl. by rewrite Nat.add_succ_r. }
    destruct Hlen as [n ->].
    assert (Hfresh : ∀ k, k ∈ l → k ∉ [a])
      by (by intros k Hk ->%list_elem_of_singleton).
    pose proof (resolve_linked m a l [a] (size m) n "" "" Ha Hl Hnd Hfresh
                  (list_elem_of_here a []) Hlink Hsize eq_refl) as Hr.
    rewrite app_nil_l_s, app_nil_r_s in Hr. by rewrite Hr.
  - by vm_compute.
Qed.

(** C5: the default of a reference stands in for an absent name, and a
    stored value goes before the default. *)
Theorem Resolve_default_fallback :
  Resolve ToString New "${x:=5}" = Done "5" ∧
  Resolve ToString (<["x" := "7"]> New) "${x:=5}" = Done "7" ∧
  Resolve castToString (Set_ castToString "x" (VInt 7) New) "${x:=5}" = Done "7".
Proof. split_and!; by vm_compute. Qed.

End Resolving.

(** * Grouping *)

Lemma contain_Strings_spec array val :
  (val ∈ array → (0 ≤ contain_Strings array val)%Z) ∧
  (val ∉ array → contain_Strings array val = (-1)%Z).
Proof.
  induction array as [|x array [IH1 IH2]]; simpl.
  - split; [by intros ?%elem_of_nil|done].
  - case_decide as Hx; [subst; split; [done|]|].
    + intros H. exfalso. apply H, list_elem_of_here.
    + split.
      * intros [?|Hin]%elem_of_cons; [by subst|]. specialize (IH1 Hin).
        destruct (contain_Strings array val <? 0)%Z eqn:E; lia.
      * intros Hnot. rewrite IH2; [done|].
        intros Hin. apply Hnot. by apply list_elem_of_further.
Qed.

Lemma contain_Strings_found array val :
  (0 <=? contain_Strings array val)%Z = true ↔ val ∈ array.
Proof.
  destruct (contain_Strings_spec array val) as [H1 H2].
  rewrite Z.leb_le. split; [|done].
  intros H. destruct (decide (val ∈ array)) as [|Hn]; [done|].
  rewrite (H2 Hn) in H. lia.
Qed.

Lemma elem_of_Group_loop keys prefix : ∀ groups g,
  g ∈ Group_loop keys prefix groups ↔
  g ∈ groups ∨ ∃ k, k ∈ keys ∧ segment_under prefix k g.
Proof.
  unfold segment_under.
  induction keys as [|key keys IH]; intros groups g; simpl.
  - split; [by left|]. intros [?|(k & ?%elem_of_nil & _)]; done.
  - destruct (trimPrefix key prefix) as [s ok] eqn:E.
    destruct ok; simpl.
    + destruct (0 <=? contain_Strings groups (first (Split s dot)))%Z eqn:Ec.
      * apply contain_Strings_found in Ec. rewrite IH. split.
        -- intros [?|(k & Hk & ?)]; [by left|]. right. exists k.
           split; [by apply list_elem_of_further|done].
        -- intros [?|(k & [->|Hk]%elem_of_cons & Hs)]; [by left| |].
           ++ rewrite E in Hs. destruct Hs as [_ ->]. by left.
           ++ right. by exists k.
      * rewrite IH, elem_of_app, list_elem_of_singleton. split.
        -- intros [[?| ->]|(k & Hk & ?)]; [by left| |].
           ++ right. exists key. rewrite E. split; [apply list_elem_of_here|done].
           ++ right. exists k. split; [by apply list_elem_of_further|done].
        -- intros [?|(k & [->|Hk]%elem_of_cons & Hs)]; [by left; left| |].
           ++ rewrite E in Hs. destruct Hs as [_ ->]. by left; right.
           ++ right. by exists k.
    + rewrite IH. split.
      * intros [?|(k & Hk & ?)]; [by left|]. right. exists k.
        split; [by apply list_elem_of_further|done].
      * intros [?|(k & [->|Hk]%elem_of_cons & Hs)]; [by left| |].
        -- rewrite E in Hs. by destruct Hs.
        -- right. by exists k.
Qed.

Lemma NoDup_Group_loop keys prefix : ∀ groups,
  NoDup groups → NoDup (Group_loop keys prefix groups).
Proof.
  induction keys as [|key keys IH]; intros groups Hnd; simpl; [done|].
  destruct (trimPrefix key prefix) as [s [|]]; simpl; [|by apply IH].
  destruct (0 <=? contain_Strings groups (first (Split s dot)))%Z eqn:Ec;
    [by apply IH|].
  apply IH. apply NoDup_app. split_and!; [done| |apply NoDup_singleton].
  intros x Hx ->%list_elem_of_singleton.
  apply contain_Strings_found in Hx. congruence.
Qed.

Lemma elem_of_Group_of keys prefix g :
  g ∈ Group_of keys prefix ↔ ∃ k, k ∈ keys ∧ segment_under prefix k g.
Proof.
  unfold Group_of. rewrite elem_of_Group_loop. split; [|by right].
  by intros [?%elem_of_nil|?].
Qed.

Lemma NoDup_Group_of keys prefix : NoDup (Group_of keys prefix).
Proof. apply NoDup_Group_loop, NoDup_nil_2. Qed.

Lemma Split_nonempty s : Split s dot ≠ [].
Proof.
  induction s as [|c s IH]; simpl; [done|].
  case_decide; [done|]. by destruct (Split s dot).
Qed.

Lemma first_Split_dot s : first (Split (String dot s) dot) = "".
Proof. reflexivity. Qed.

Lemma first_Split_cons c s :
  c ≠ dot → first (Split (String c s) dot) = String c (first (Split s dot)).
Proof.
  intros Hc. simpl. rewrite decide_False by done.
  pose proof (Split_nonempty s). by destruct (Split s dot).
Qed.

(** A string is its first segment, or its first segment, a dot and more. *)
Lemma Split_first s :
  s = first (Split s dot) ∨ ∃ rest, s = first (Split s dot) +:+ "." +:+ rest.
Proof.
  induction s as [|c s IH]; [by left|].
  destruct (decide (c = dot)) as [->|Hc].
  - right. exists s. by rewrite first_Split_dot.
  - rewrite first_Split_cons by done. destruct IH as [IH|[rest IH]].
    + left. by rewrite <- IH.
    + right. exists rest. by rewrite app_cons_s, <- IH.
Qed.

Lemma HasPrefix_iff s p : HasPrefix s p = true ↔ ∃ t, s = p +:+ t.
Proof.
  split.
  - intros H. eexists. by apply HasPrefix_TrimPrefix.
  - intros [t ->]. apply HasPrefix_app.
Qed.

Lemma trimPrefix_root k : trimPrefix k rootKey = (k, true).
Proof. unfold trimPrefix. by rewrite decide_True. Qed.

Lemma trimPrefix_under k prefix :
  prefix ≠ rootKey → HasPrefix k (prefix +:+ ".") = true →
  trimPrefix k prefix = (TrimPrefix k (prefix +:+ "."), true).
Proof. intros Hp Hk. unfold trimPrefix. by rewrite decide_False, Hk. Qed.

Lemma trimPrefix_outside k prefix :
  prefix ≠ rootKey → HasPrefix k (prefix +:+ ".") = false →
  trimPrefix k prefix = ("", false).
Proof. intros Hp Hk. unfold trimPrefix. by rewrite decide_False, Hk. Qed.

(** The groups under a prefix that is not the root marker: the first
    segments of what follows [prefix.] in the keys that start with it. *)
Lemma elem_of_Group_under keys prefix g :
  prefix ≠ rootKey →
  g ∈ Group_of keys prefix ↔
  ∃ k, k ∈ keys ∧ HasPrefix k (prefix +:+ ".") = true ∧
       g = first (Split (TrimPrefix k (prefix +:+ ".")) dot).
Proof.
  intros Hp. rewrite elem_of_Group_of. unfold segment_under.
  split; intros (k & Hk & H); exists k; (split; [done|]).
  - destruct (HasPrefix k (prefix +:+ ".")) eqn:E.
    + by rewrite trimPrefix_under in H.
    + rewrite trimPrefix_outside in H by done. by destruct H.
  - destruct H as [Hpre ->]. by rewrite trimPrefix_under.
Qed.

(** The groups under the root marker: the first segments of the keys. *)
Lemma elem_of_Group_root keys g :
  g ∈ Group_of keys rootKey ↔ ∃ k, k ∈ keys ∧ g = first (Split k dot).
Proof.
  rewrite elem_of_Group_of. unfold segment_under.
  split; intros (k & Hk & H); exists k; (split; [done|]).
  - rewrite trimPrefix_root in H. by destruct H.
  - by rewrite trimPrefix_root.
Qed.

Lemma child_under prefix g : prefix ≠ rootKey → child prefix g = fieldKey prefix g.
Proof. intros Hp. unfold child. by rewrite decide_False. Qed.

Lemma child_root g : child rootKey g = g.
Proof. unfold child. by rewrite decide_True. Qed.

Lemma fieldKey_not_root prefix g : fieldKey prefix g ≠ rootKey.
Proof.
  unfold fieldKey, rootKey. destruct prefix as [|c prefix]; [done|].
  rewrite app_cons_s. intros [= _ H]. by apply app_eq_nil_s in H as [_ ?].
Qed.

Lemma fieldKey_length prefix g :
  String.length (fieldKey prefix g) = String.length prefix + 1 + String.length g.
Proof. unfold fieldKey. rewrite !app_length_s. simpl. lia. Qed.

Lemma HasPrefix_length s p :
  HasPrefix s p = true → (String.length p ≤ String.length s)%nat.
Proof. intros [t ->]%HasPrefix_iff. rewrite app_length_s. lia. Qed.

Lemma under_fieldKey k prefix g :
  k = fieldKey prefix g ∨ HasPrefix k (fieldKey prefix g +:+ ".") = true →
  HasPrefix k (prefix +:+ ".") = true.
Proof.
  unfold fieldKey. intros [->|[t ->]%HasPrefix_iff]; apply HasPrefix_iff.
  - exists g. by rewrite app_assoc_s.
  - exists (g +:+ "." +:+ t). by rewrite !app_assoc_s.
Qed.

(** What the reconstruction collects under a prefix is stored, and is the
    prefix or lies under it. *)
Lemma rebuild_sound keys : ∀ depth prefix k,
  prefix ≠ rootKey → k ∈ rebuild depth keys prefix →
  k ∈ keys ∧ (k = prefix ∨ HasPrefix k (prefix +:+ ".") = true).
Proof.
  induction depth as [|depth IH]; intros prefix k Hp; simpl;
    [by intros ?%elem_of_nil|].
  rewrite elem_of_app. intros [Hk|Hk].
  - case_decide; [|by apply elem_of_nil in Hk].
    apply list_elem_of_singleton in Hk as ->. by split; [|left].
  - apply list_elem_of_In, in_flat_map in Hk as (g & _ & Hk%list_elem_of_In).
    rewrite child_under in Hk by done.
    apply IH in Hk as [Hin Hk]; [|apply fieldKey_not_root].
    split; [done|]. right. by eapply under_fieldKey.
Qed.

(** Every stored key at or under a prefix is collected, once the depth
    exceeds what the key is longer than the prefix. *)
Lemma rebuild_complete keys : ∀ depth prefix k,
  prefix ≠ rootKey → k ∈ keys →
  k = prefix ∨ HasPrefix k (prefix +:+ ".") = true →
  (String.length k - String.length prefix < depth)%nat →
  k ∈ rebuild depth keys prefix.
Proof.
  induction depth as [|depth IH]; intros prefix k Hp Hin Hk Hd; [lia|].
  simpl. apply elem_of_app. destruct Hk as [->|Hk].
  { left. rewrite decide_True by done. apply list_elem_of_here. }
  right. apply list_elem_of_In, in_flat_map.
  set (rest := TrimPrefix k (prefix +:+ ".")).
  exists (first (Split rest dot)). split.
  { apply list_elem_of_In, elem_of_Group_under; [done|]. by exists k. }
  apply list_elem_of_In. rewrite child_under by done.
  assert (Hkr : k = (prefix +:+ ".") +:+ rest) by by apply HasPrefix_TrimPrefix.
  assert (Hshape : k = fieldKey prefix (first (Split rest dot)) ∨
            HasPrefix k (fieldKey prefix (first (Split rest dot)) +:+ ".") = true).
  { unfold fieldKey. destruct (Split_first rest) as [Hr|[rest' Hr]].
    - left. rewrite <- Hr. by rewrite <- app_assoc_s.
    - right. apply HasPrefix_iff. exists rest'.
      rewrite Hkr at 1. rewrite Hr at 1. by rewrite !app_assoc_s. }
  apply IH; [apply fieldKey_not_root|done|done|].
  apply HasPrefix_length in Hk. rewrite app_length_s in Hk. simpl in Hk.
  rewrite fieldKey_length. lia.
Qed.

(** From the root marker the reconstruction collects exactly the stored
    keys, when no key has the root marker as its first segment and the
    depth exceeds the length of every key by two. *)
Lemma rebuild_root keys depth :
  (∀ k, k ∈ keys → first (Split k dot) ≠ rootKey) →
  (∀ k, k ∈ keys → (String.length k + 1 < depth)%nat) →
  ∀ k, k ∈ rebuild depth keys rootKey ↔ k ∈ keys.
Proof.
  intros Hroot Hdepth k. destruct depth as [|depth].
  { split; [by intros ?%elem_of_nil|]. intros Hk. specialize (Hdepth k Hk). lia. }
  simpl. rewrite elem_of_app. split.
  - intros [Hk|Hk].
    + case_decide; [|by apply elem_of_nil in Hk].
      by apply list_elem_of_singleton in Hk as ->.
    + apply list_elem_of_In, in_flat_map in Hk as (g & Hg & Hk).
      apply list_elem_of_In, elem_of_Group_root in Hg as (k' & Hk' & ->).
      apply list_elem_of_In in Hk. rewrite child_root in Hk.
      apply rebuild_sound in Hk as [? _]; [done|by apply Hroot].
  - intros Hk. right. apply list_elem_of_In, in_flat_map.
    exists (first (Split k dot)). split.
    + apply list_elem_of_In, elem_of_Group_root. by exists k.
    + apply list_elem_of_In. rewrite child_root.
      apply rebuild_complete; [by apply Hroot|done| |].
      * destruct (Split_first k) as [Hs|[rest Hs]]; [by left|].
        right. apply HasPrefix_iff. exists rest. rewrite Hs at 1.
        by rewrite app_assoc_s.
      * specialize (Hdepth k Hk). lia.
Qed.

Lemma elem_of_Keys (m : gmap string string) k : k ∈ Keys m ↔ is_Some (m !! k).
Proof.
  unfold Keys. rewrite list_elem_of_fmap. split.
  - intros ([k' s] & -> & Hin%elem_of_map_to_list). by exists s.
  - intros [s Hs]. exists (k, s). split; [done|]. by apply elem_of_map_to_list.
Qed.

Lemma elem_of_KeysOf (m : gmap string string) ks k :
  KeysOf m ks → k ∈ ks ↔ is_Some (m !! k).
Proof. unfold KeysOf. intros ->. apply elem_of_Keys. Qed.

Lemma first_Split_app_nonempty a b :
  first (Split a dot) ≠ "" → first (Split (a +:+ b) dot) ≠ "".
Proof.
  destruct a as [|c a]; [done|]. rewrite app_cons_s.
  destruct (decide (c = dot)) as [->|Hc]; [by rewrite first_Split_dot|].
  by rewrite !first_Split_cons.
Qed.

Lemma first_Split_suffix key suffix :
  suffix_shape suffix →
  first (Split key dot) ≠ rootKey →
  first (Split (key +:+ suffix) dot) ≠ rootKey.
Proof.
  intros Hs. destruct key as [|c key].
  - intros _. rewrite app_nil_l_s.
    destruct Hs as [->|[t [-> | ->]]].
    + by cbv.
    + change ("." +:+ t) with (String dot t). by rewrite first_Split_dot.
    + change ("[" +:+ t) with (String "[" t). by rewrite first_Split_cons.
  - rewrite app_cons_s. destruct (decide (c = dot)) as [->|Hc].
    { by rewrite !first_Split_dot. }
    rewrite !first_Split_cons by done. unfold rootKey.
    intros Hk [= -> Hnil]. apply Hk. f_equal.
    destruct (decide (first (Split key dot) = "")) as [|Hne]; [done|].
    by apply (first_Split_app_nonempty key suffix) in Hne.
Qed.

Section Grouping.

Variable ToString : value → string.

Lemma leaf_shape key val p s :
  leaf ToString key val p s → ∃ suffix, p = key +:+ suffix ∧ suffix_shape suffix.
Proof.
  unfold suffix_shape.
  induction 1 as [key v Hv|key es k v p s Hin Hl (suffix & -> & _)
                 |key xs i x p s Hi Hl (suffix & -> & _)
                 |key xs i x p s Hi Hl (suffix & -> & _)].
  - exists "". split; [by rewrite app_nil_r_s|by left].
  - exists ("." +:+ ToString k +:+ suffix). unfold fieldKey.
    split; [by rewrite !app_assoc_s|]. right. eexists. by left.
  - exists ("[" +:+ pretty i +:+ "]" +:+ suffix). unfold indexKey.
    split; [by rewrite !app_assoc_s|]. right. eexists. by right.
  - exists ("[" +:+ pretty i +:+ "]" +:+ suffix). unfold indexKey.
    split; [by rewrite !app_assoc_s|]. right. eexists. by right.
Qed.

(** The keys of a new store after one [Set] are the keys of the leaves
    of the value. *)
Lemma Keys_Set key val ks k :
  KeysOf (Set_ ToString key val New) ks →
  k ∈ ks ↔ ∃ s, leaf ToString key val k s.
Proof.
  intros Hks. rewrite (elem_of_KeysOf _ _ _ Hks), Set_assign. split.
  - intros [s Hs].
    destruct (decide (k ∈ (leaves ToString key val).*1)) as [Hin|Hnot].
    + apply list_elem_of_fmap in Hin as ([k' s'] & -> & Hin).
      exists s'. by apply leaf_leaves.
    + rewrite assign_lookup_notin in Hs by done. unfold New in Hs.
      by rewrite lookup_empty in Hs.
  - intros [s Hl].
    destruct (assign_lookup_in (leaves ToString key val) k New) as (s' & _ & ->);
      [by eapply leaf_key_in|done].
Qed.

(** C3: [Set] on a new store, then the reconstruction driven by [Group]
    from the root marker, gives back the keys of the leaves that [Set]
    produced: every leaf key is collected and nothing else is. The key
    must not have the root marker as its first segment, and the depth of
    the descent must exceed the length of the keys. [Group] lists every
    child segment once, each the first segment under [prefix.] of a
    stored key, so that over the keys [db.one.url] and [db.two.url], in
    whatever order [Keys] lists them, [Group("db")] is [one] and [two]. *)
Theorem Set_Group_roundtrip key val ks depth :
  KeysOf (Set_ ToString key val New) ks →
  first (Split key dot) ≠ rootKey →
  (∀ k, k ∈ ks → (String.length k + 1 < depth)%nat) →
  (∀ k, k ∈ rebuild depth ks rootKey ↔ ∃ s, leaf ToString key val k s) ∧
  (∀ prefix, NoDup (Group_of ks prefix)) ∧
  (∀ prefix g, prefix ≠ rootKey →
     g ∈ Group_of ks prefix ↔
     ∃ k s, leaf ToString key val k s ∧ HasPrefix k (prefix +:+ ".") = true ∧
            g = first (Split (TrimPrefix k (prefix +:+ ".")) dot)) ∧
  (∀ u1 u2 ks',
     KeysOf (<["db.one.url" := u1]> (<["db.two.url" := u2]> New)) ks' →
     Group_of ks' "db" ≡ₚ ["one"; "two"]).
Proof.
  intros Hks Hkey Hdepth. split_and!.
  - intros k. rewrite <- (Keys_Set key val ks k Hks).
    apply rebuild_root; [|done].
    intros k' [s Hl]%(Keys_Set key val ks k' Hks).
    apply leaf_shape in Hl as (suffix & -> & Hshape).
    by apply first_Split_suffix.
  - intros prefix. apply NoDup_Group_of.
  - intros prefix g Hp. rewrite elem_of_Group_under by done. split.
    + intros (k & [s Hl]%(Keys_Set key val ks k Hks) & Hpre & ->).
      by exists k, s.
    + intros (k & s & Hl & Hpre & ->). exists k. split; [|done].
      apply (Keys_Set key val ks k Hks). by exists s.
  - intros u1 u2 ks' Hks'. apply NoDup_Permutation.
    + apply NoDup_Group_of.
    + apply NoDup_cons. split; [|apply NoDup_singleton].
      by intros [=]%list_elem_of_singleton.
    + intros g. rewrite elem_of_Group_under by done.
      rewrite elem_of_cons, list_elem_of_singleton. split.
      * unfold New in Hks'.
        intros (k & Hk%(elem_of_KeysOf _ _ _ Hks') & Hpre & ->).
        destruct (decide (k = "db.one.url")) as [->|H1]; [by left|].
        destruct (decide (k = "db.two.url")) as [->|H2]; [by right|].
        rewrite !lookup_insert_ne, lookup_empty in Hk by done.
        by destruct Hk.
      * unfold New in Hks'. intros [-> | ->].
        -- exists "db.one.url". split; [|done].
           apply (elem_of_KeysOf _ _ _ Hks'). rewrite lookup_insert_eq. by eexists.
        -- exists "db.two.url". split; [|done].
           apply (elem_of_KeysOf _ _ _ Hks').
           rewrite lookup_insert_ne, lookup_insert_eq by done. by eexists.
Qed.

End Grouping.

(** * The theorems at concrete inputs *)

(** The record field of the second element of [sample_value] is stored
    under [a[1].b]. *)
Lemma Set_flattens_witness :
  ∃ s', leaf castToString "a" sample_value "a[1].b" s' ∧
        Set_ castToString "a" sample_value New !! "a[1].b" = Some s'.
Proof.
  apply (proj1 (Set_flattens castToString "a" sample_value New) "a[1].b" "x").
  eapply (leaf_slice castToString "a" _ 1); [reflexivity|].
  eapply leaf_field; [apply list_elem_of_here|].
  exact (leaf_scalar castToString
           (fieldKey (indexKey "a" 1) (castToString (VString "b")))
           (VString "x") eq_refl).
Defined.

(** [Def(nil)] on an absent key: the specification has [Get] return the
    default as a string, the code returns [nil]. *)
Lemma Get_Def_nil_counterexample :
  New !! TrimPrefix "k" (rootKey +:+ ".") = None ∧
  Get castToString "k" [Def VNil] New = None ∧
  Get castToString "k" [Def VNil] New ≠ Some (castToString VNil).
Proof. by split_and!. Qed.

Lemma Get_reads_witness :
  Get castToString "$.a" (Def <$> [VInt 5]) New = Some (castToString (VInt 5)).
Proof.
  pose proof (Get_reads castToString "$.a" [VInt 5] New) as H.
  cbv zeta in H. destruct H as (_ & _ & _ & H & _).
  apply (H (VInt 5)); [reflexivity|reflexivity|discriminate].
Defined.

(** Why the key must not begin with the root marker: the record [{a: 1}]
    set under the key [$] has the leaf key [$.a], which is stored; [Group]
    takes the prefix [$] for the root and answers with the segment [$]
    again, and the reconstruction from the root marker does not come by
    the key. *)
Lemma Group_root_marker_reserved :
  leaf castToString "$" (VMap [(VString "a", VInt 1)]) "$.a" "1" ∧
  Keys (Set_ castToString "$" (VMap [(VString "a", VInt 1)]) New) = ["$.a"] ∧
  Group_of (Keys (Set_ castToString "$" (VMap [(VString "a", VInt 1)]) New)) rootKey
  = ["$"] ∧
  rebuild 5 (Keys (Set_ castToString "$" (VMap [(VString "a", VInt 1)]) New)) rootKey
  = [].
Proof.
  split_and!; [|by vm_compute..].
  eapply leaf_field; [apply list_elem_of_here|].
  exact (leaf_scalar castToString (fieldKey "$" (castToString (VString "a")))
           (VInt 1) eq_refl).
Qed.

Lemma Set_Group_roundtrip_witness :
  "db.one.url" ∈ rebuild 12 (Keys (Set_ castToString "db" sample_sources New)) rootKey ↔
  ∃ s, leaf castToString "db" sample_sources "db.one.url" s.
Proof.
  assert (H1 : KeysOf (Set_ castToString "db" sample_sources New)
                 (Keys (Set_ castToString "db" sample_sources New)))
    by (unfold KeysOf; reflexivity).
  assert (H2 : first (Split "db" dot) ≠ rootKey) by (by vm_compute).
  assert (H3 : ∀ k, k ∈ Keys (Set_ castToString "db" sample_sources New) →
                 (String.length k + 1 < 12)%nat).
  { intros k Hk. vm_compute in Hk.
    apply elem_of_cons in Hk as [->|Hk]; [vm_compute; lia|].
    apply list_elem_of_singleton in Hk as ->. vm_compute. lia. }
  destruct (Set_Group_roundtrip castToString "db" sample_sources _ 12 H1 H2 H3)
    as [H _].
  exact (H "db.one.url").
Defined.

Lemma Resolve_detects_cycles_witness :
  Resolve castToString (<["b" := "${a}"]> New) (reference_or "a" (reference "b"))
  = Fail (ErrReferenceCycle "a").
Proof.
  assert (H1 : NoDup ["a"; "b"]).
  { apply NoDup_cons. split; [|apply NoDup_singleton].
    by intros [=]%list_elem_of_singleton. }
  assert (H2 : Forall (λ k, plain k = true) ["a"; "b"]) by (by repeat constructor).
  assert (H3 : (<["b" := "${a}"]> New : gmap string string) !! "a" = None)
    by reflexivity.
  assert (H4 : linked (<["b" := "${a}"]> New) ["b"] "a").
  { split; [|done]. exists "${a}". split; [reflexivity|]. by exists "", "". }
  exact (proj1 (proj2 (proj2
           (Resolve_detects_cycles castToString (<["b" := "${a}"]> New))))
           "a" ["b"] "" "" H1 H2 H3 H4 eq_refl).
Defined.

Lemma Set_empty_composite_witness :
  Set_ castToString "a" (VSlice []) New = New ∧
  Get castToString "a" [] (Set_ castToString "a" (VSlice []) New) = None.
Proof.
  destruct (Set_empty_composite castToString "a" (VSlice []) New)
    as (H1 & _ & _ & H4 & _); [by right; right|].
  by split.
Defined.

(** [Bind] on the [reflect.Value] of an [int] that is not addressable: no
    error is returned, the value goes to the binder. *)
Lemma Bind_unaddressable_counterexample :
  reflect.CanAddr unaddressable_int = false ∧
  reflect.Kind_of unaddressable_int ≠ reflect.Ptr ∧
  Bind New (ReflectValue unaddressable_int) []
  = CallBind New unaddressable_int "${$}" {| path := "int" |} ∧
  Bind New (ReflectValue unaddressable_int) [] ≠ ReturnError errNotPointer.
Proof. by split_and!. Qed.

Lemma Bind_rejects_non_pointer_witness :
  Bind New (Plain unaddressable_int) [] = ReturnError errNotPointer.
Proof.
  apply (Bind_rejects_non_pointer New unaddressable_int []). discriminate.
Defined.

(** [Go] with an argument that is no function, and with a function that
    returns a value: the error is not returned, [Go] panics with it. *)
Lemma Go_precondition_counterexample :
  Go fnType unit nat id refreshed bound_task idle NotFunc [] = Panics errGoFn ∧
  Go fnType unit nat id refreshed bound_task idle (FuncOf [OtherType]) []
  = Panics errGoFn.
Proof. by split. Qed.

Lemma precondition_errors_witness :
  Invoke fnType unit nat id refreshed bound_task failing_call idle NotFunc []
  = Returns ([], Some errInvokeFn).
Proof.
  apply (precondition_errors fnType unit nat id refreshed bound_task failing_call
           idle NotFunc []); [reflexivity|by left].
Defined.

(** A task is launched on the idle world and its call panics: the process
    is alive, the wait group is back at zero and no goroutine is left. *)
Lemma Go_tasks_supervised_witness :
  ∃ w' : World nat,
    Alive {| container := {| wg := 0; logged := ["boom"] |};
             goroutines := [] |} = Alive w' ∧
        tracked w' ∧ (wg (container w') = 0 → goroutines w' = []).
Proof.
  apply (Go_tasks_supervised fnType unit nat id refreshed bound_task failing_call
           idle _).
  - reflexivity.
  - eapply rtc_l.
    + by apply (step_Go fnType unit nat id refreshed bound_task failing_call
                  idle (FuncOf []) []).
    + eapply rtc_l; [|apply rtc_refl].
      by apply (step_task fnType unit nat id refreshed bound_task failing_call
                  _ [] 0 []).
Defined.

(** * Further properties of the store *)

Lemma app_inv_head_s (a b c : string) : a +:+ b = a +:+ c → b = c.
Proof.
  induction a as [|x a IH]; [done|]. rewrite !app_cons_s. intros [= H]. by apply IH.
Qed.

Lemma app_inv_tail_s (c : string) : ∀ a b, a +:+ c = b +:+ c → a = b.
Proof.
  induction a as [|x a IH]; intros [|y b] H.
  - done.
  - apply (f_equal String.length) in H.
    rewrite app_nil_l_s, app_cons_s in H. simpl in H.
    rewrite app_length_s in H. lia.
  - apply (f_equal String.length) in H.
    rewrite app_nil_l_s, app_cons_s in H. simpl in H.
    rewrite app_length_s in H. lia.
  - rewrite !app_cons_s in H. injection H as -> H. f_equal. by apply IH.
Qed.

Lemma indexKey_inj key i j : indexKey key i = indexKey key j → i = j.
Proof.
  unfold indexKey. intros H%app_inv_head_s%app_inv_head_s.
  apply app_inv_tail_s in H. by apply (inj pretty) in H.
Qed.

Lemma fieldKey_inj key f g : fieldKey key f = fieldKey key g → f = g.
Proof. unfold fieldKey. by intros H%app_inv_head_s%app_inv_head_s. Qed.

Lemma HasPrefix_app_l s t p : HasPrefix s p = true → HasPrefix (s +:+ t) p = true.
Proof.
  intros [u ->]%HasPrefix_iff. apply HasPrefix_iff. exists (u +:+ t).
  by rewrite app_assoc_s.
Qed.

Section Writing.

Variable ToString : value → string.

(** A leaf that is the only one at its key is what [Set] leaves there. *)
Lemma Set_lookup_leaf key val m p s :
  leaf ToString key val p s →
  (∀ s', leaf ToString key val p s' → s' = s) →
  Set_ ToString key val m !! p = Some s.
Proof.
  intros Hl Huniq. rewrite Set_assign.
  destruct (assign_lookup_in (leaves ToString key val) p m) as (s' & Hs' & ->);
    [by eapply leaf_key_in|].
  f_equal. by apply Huniq, leaf_leaves.
Qed.

Lemma Set_lookup_other key val m p :
  (∀ s, ¬ leaf ToString key val p s) →
  Set_ ToString key val m !! p = m !! p.
Proof.
  intros Hno. rewrite Set_assign. apply assign_lookup_notin.
  intros ([p' s] & Hp & Hin)%list_elem_of_fmap. simpl in Hp. subst p'.
  by apply (Hno s), leaf_leaves.
Qed.

Lemma Set_dom key val m :
  dom (Set_ ToString key val m)
  = list_to_set (leaves ToString key val).*1 ∪ dom m.
Proof.
  apply set_eq. intros k.
  rewrite elem_of_union, elem_of_list_to_set, !elem_of_dom, Set_assign.
  destruct (decide (k ∈ (leaves ToString key val).*1)) as [Hin|Hnot].
  - destruct (assign_lookup_in _ k m Hin) as (s & _ & ->). split; [by left|by eexists].
  - rewrite assign_lookup_notin by done. split; [by right|]. by intros [?|?].
Qed.

(** X1: [Set] writes under its key only. A key that does not begin with
    [key] keeps what the store held, and so does a key that goes on after
    [key] with another byte than a dot or an opening bracket. *)
Theorem Set_writes_under_key key val m k :
  (HasPrefix k key = false → Set_ ToString key val m !! k = m !! k) ∧
  (∀ c rest, k = key +:+ String c rest → c ≠ "."%char → c ≠ "["%char →
     Set_ ToString key val m !! k = m !! k).
Proof.
  split.
  - intros Hk. apply Set_lookup_other. intros s (suffix & -> & _)%leaf_shape.
    by rewrite HasPrefix_app in Hk.
  - intros c rest -> Hdot Hbr. apply Set_lookup_other.
    intros s (suffix & Heq%app_inv_head_s & Hshape)%leaf_shape.
    destruct Hshape as [->|[t [-> | ->]]]; [done| |];
      change ("." +:+ t) with (String "." t) in *;
      change ("[" +:+ t) with (String "[" t) in *; congruence.
Qed.

(** X2: [Set] never removes an entry: every key stored before is stored
    afterwards, and the store has at least as many entries. *)
Theorem Set_keeps_keys key val m :
  (∀ k, is_Some (m !! k) → is_Some (Set_ ToString key val m !! k)) ∧
  (size m ≤ size (Set_ ToString key val m))%nat.
Proof.
  assert (Hsub : dom m ⊆ dom (Set_ ToString key val m)).
  { rewrite Set_dom. intros k Hk. apply elem_of_union. by right. }
  split.
  - intros k Hk%elem_of_dom. by apply elem_of_dom, Hsub.
  - rewrite <- !size_dom. by apply subseteq_size.
Qed.

(** X3: a scalar that is set can be read back. For a key that does not
    begin with ["$."], [Get] of the key, and of the key behind the root
    prefix, returns the string of the scalar, whatever the store held and
    whatever default is given. *)
Theorem Set_scalar_Get key v m opts :
  scalar v = true → HasPrefix key "$." = false →
  Get ToString key opts (Set_ ToString key v m) = Some (ToString v) ∧
  Get ToString ("$." +:+ key) opts (Set_ ToString key v m) = Some (ToString v).
Proof.
  intros Hv Hkey.
  assert (Hset : Set_ ToString key v m !! key = Some (ToString v)).
  { apply Set_lookup_leaf; [by constructor|].
    intros s' Hl. by apply leaf_scalar_inv in Hl as [_ ->]. }
  split; apply Get_present; change (rootKey +:+ ".") with "$.".
  - by rewrite TrimPrefix_none.
  - by rewrite (TrimPrefix_app "$." key).
Qed.

(** X4: a key that is written with the root prefix is not read back under
    the name it was written with: [Get] drops the prefix and looks for the
    rest. *)
Theorem Set_root_prefix_not_read key v :
  scalar v = true →
  Set_ ToString ("$." +:+ key) v New !! ("$." +:+ key) = Some (ToString v) ∧
  Get ToString ("$." +:+ key) [] (Set_ ToString ("$." +:+ key) v New) = None.
Proof.
  intros Hv.
  assert (Hset : Set_ ToString ("$." +:+ key) v New
                 = <["$." +:+ key := ToString v]> New) by (by destruct v).
  rewrite Hset. split; [apply lookup_insert_eq|].
  rewrite Get_nil. change (rootKey +:+ ".") with "$.".
  rewrite (TrimPrefix_app "$." key). unfold New.
  rewrite lookup_insert_ne, lookup_empty; [done|].
  intros H%(f_equal String.length). rewrite app_length_s in H. simpl in H. lia.
Qed.

End Writing.

Lemma NoDup_fst_unique {A B} (l : list (A * B)) k x y :
  NoDup l.*1 → (k, x) ∈ l → (k, y) ∈ l → x = y.
Proof.
  induction l as [|[k' z] l IH]; [by intros _ ?%elem_of_nil|].
  rewrite fmap_cons. intros [Hk Hnd]%NoDup_cons.
  intros [[= -> ->]|Hx]%elem_of_cons [[= ->]|Hy]%elem_of_cons; try done.
  - destruct Hk. apply list_elem_of_fmap. by exists (k', y).
  - destruct Hk. apply list_elem_of_fmap. by exists (k', x).
  - by apply IH.
Qed.

Lemma assign_lookup_NoDup l m k s :
  NoDup l.*1 → (k, s) ∈ l → assign l m !! k = Some s.
Proof.
  intros Hnd Hin. destruct (assign_lookup_in l k m) as (s' & Hs' & ->).
  - apply list_elem_of_fmap. by exists (k, s).
  - f_equal. by eapply NoDup_fst_unique.
Qed.

Lemma assign_Permutation l l' m :
  NoDup l.*1 → l ≡ₚ l' → assign l m = assign l' m.
Proof.
  intros Hnd Hperm. rewrite !assign_union. f_equal.
  apply list_to_map_proper.
  - by rewrite fmap_reverse, reverse_Permutation.
  - by rewrite !reverse_Permutation.
Qed.

Section Entries.

Variable ToString : value → string.

Lemma fold_Set_assign es : ∀ p,
  fold_left (λ p kv, Set_ ToString kv.1 kv.2 p) es p
  = assign (entries_leaves ToString es) p.
Proof.
  unfold entries_leaves.
  induction es as [|[k v] es IH]; intros p; [done|].
  simpl. by rewrite IH, assign_app, Set_assign.
Qed.

Lemma elem_of_entries_leaves es p s :
  (p, s) ∈ entries_leaves ToString es ↔
  ∃ k v, (k, v) ∈ es ∧ leaf ToString k v p s.
Proof.
  unfold entries_leaves. rewrite list_elem_of_In, in_flat_map. split.
  - intros ([k v] & Hin%list_elem_of_In & H%list_elem_of_In).
    exists k, v. split; [done|]. by apply leaf_leaves.
  - intros (k & v & Hin & Hl). exists (k, v).
    split; [by apply list_elem_of_In|]. by apply list_elem_of_In, leaf_leaves.
Qed.

Lemma leaf_sequence_scalars key xs p s val :
  val = VSlice xs ∨ val = VArray xs →
  Forall (λ x, scalar x = true) xs →
  leaf ToString key val p s ↔
  ∃ i x, xs !! i = Some x ∧ p = indexKey key i ∧ s = ToString x.
Proof.
  intros Hval Hxs. rewrite Forall_forall in Hxs. split.
  - intros Hl.
    assert (∃ i x, xs !! i = Some x ∧ leaf ToString (indexKey key i) x p s)
      as (i & x & Hi & Hx).
    { destruct Hval as [-> | ->]; inversion Hl; subst; try done; eauto. }
    exists i, x. split; [done|].
    apply leaf_scalar_inv in Hx; [done|].
    by eapply Hxs, list_elem_of_lookup_2.
  - intros (i & x & Hi & -> & ->).
    assert (leaf ToString (indexKey key i) x (indexKey key i) (ToString x)).
    { constructor. by eapply Hxs, list_elem_of_lookup_2. }
    destruct Hval as [-> | ->]; [by eapply leaf_slice|by eapply leaf_array].
Qed.

(** X5: a slice or an array of scalars that is set can be read back
    element by element: the entry [key[i]] holds the string of the element
    [i], and no entry [key[i]] is written for an index past the end. *)
Theorem Set_sequence_elements key xs val m :
  val = VSlice xs ∨ val = VArray xs →
  Forall (λ x, scalar x = true) xs →
  (∀ i x, xs !! i = Some x →
     Set_ ToString key val m !! indexKey key i = Some (ToString x)) ∧
  (∀ i, (length xs ≤ i)%nat →
     Set_ ToString key val m !! indexKey key i = m !! indexKey key i).
Proof.
  intros Hval Hxs. split.
  - intros i x Hi. apply Set_lookup_leaf.
    + apply (leaf_sequence_scalars key xs _ _ val Hval Hxs). by exists i, x.
    + intros s' (j & y & Hj & Hij%indexKey_inj & ->)%(leaf_sequence_scalars
        key xs _ _ val Hval Hxs).
      subst j. congruence.
  - intros i Hi. apply Set_lookup_other.
    intros s (j & y & Hj & Hij%indexKey_inj & _)%(leaf_sequence_scalars
      key xs _ _ val Hval Hxs).
    subst j. apply lookup_lt_Some in Hj. lia.
Qed.

Lemma leaf_map_scalars key es p s :
  Forall (λ kv, scalar kv.2 = true) es →
  leaf ToString key (VMap es) p s ↔
  ∃ k v, (k, v) ∈ es ∧ p = fieldKey key (ToString k) ∧ s = ToString v.
Proof.
  intros Hes. rewrite Forall_forall in Hes. split.
  - inversion 1 as [| ? ? k v ? ? Hin Hl | |]; subst; [done|].
    exists k, v. split; [done|]. apply leaf_scalar_inv in Hl; [done|].
    by apply (Hes (k, v)).
  - intros (k & v & Hin & -> & ->). eapply leaf_field; [done|].
    constructor. by apply (Hes (k, v)).
Qed.

(** X6: a record of scalars whose field names are distinct as strings can
    be read back field by field: the entry [key.field] holds the string of
    the field's value. *)
Theorem Set_map_fields key es m :
  Forall (λ kv, scalar kv.2 = true) es →
  NoDup ((λ kv, ToString kv.1) <$> es) →
  ∀ k v, (k, v) ∈ es →
    Set_ ToString key (VMap es) m !! fieldKey key (ToString k) = Some (ToString v).
Proof.
  intros Hes Hnd k v Hin. apply Set_lookup_leaf.
  - apply leaf_map_scalars; [done|]. by exists k, v.
  - intros s' (k' & v' & Hin' & Hk%fieldKey_inj & ->)%leaf_map_scalars; [|done].
    clear Hes. induction es as [|[k0 v0] es IH]; [by apply elem_of_nil in Hin|].
    rewrite fmap_cons in Hnd. apply NoDup_cons in Hnd as [Hk0 Hnd]. simpl in Hk0.
    apply elem_of_cons in Hin as [[= -> ->]|Hin];
      apply elem_of_cons in Hin' as [[= -> ->]|Hin']; try done.
    + destruct Hk0. rewrite Hk. apply list_elem_of_fmap. by exists (k', v').
    + destruct Hk0. rewrite <- Hk. apply list_elem_of_fmap. by exists (k, v).
    + by apply IH.
Qed.

(** X7: the order in which the entries of a map come up does not matter
    when no two leaves of the map share a key: [Set] gives the same store
    for every order. *)
Theorem Set_map_order key es es' m :
  es ≡ₚ es' →
  NoDup (leaves ToString key (VMap es)).*1 →
  Set_ ToString key (VMap es) m = Set_ ToString key (VMap es') m.
Proof.
  intros Hperm Hnd. rewrite !Set_assign. apply assign_Permutation; [done|].
  rewrite !leaves_VMap. unfold leaves_fields. by rewrite Hperm.
Qed.

(** X8: what [Map] builds can be read back. When no two leaves of the
    entries share a key, every leaf of every entry is stored under its key
    with its string, and the stored keys are the keys of the leaves. *)
Theorem Map_reads_leaves es :
  NoDup (entries_leaves ToString es).*1 →
  (∀ k v p s, (k, v) ∈ es → leaf ToString k v p s →
     Map ToString es !! p = Some s) ∧
  (∀ p, is_Some (Map ToString es !! p) ↔
        ∃ k v s, (k, v) ∈ es ∧ leaf ToString k v p s).
Proof.
  intros Hnd. unfold Map. rewrite fold_Set_assign. split.
  - intros k v p s Hin Hl. apply assign_lookup_NoDup; [done|].
    apply elem_of_entries_leaves. by exists k, v.
  - intros p. split.
    + intros [s Hs].
      destruct (decide (p ∈ (entries_leaves ToString es).*1)) as [Hp|Hp].
      * apply list_elem_of_fmap in Hp as ([p' s'] & -> & Hin).
        apply elem_of_entries_leaves in Hin as (k & v & Hin & Hl).
        by exists k, v, s'.
      * rewrite assign_lookup_notin in Hs by done. unfold New in Hs.
        by rewrite lookup_empty in Hs.
    + intros (k & v & s & Hin & Hl). exists s.
      apply assign_lookup_NoDup; [done|].
      apply elem_of_entries_leaves. by exists k, v.
Qed.

(** X9: [Map] gives the same store for every order in which the [range]
    loop meets the entries, when no two leaves of the entries share a
    key. *)
Theorem Map_order es es' :
  es ≡ₚ es' →
  NoDup (entries_leaves ToString es).*1 →
  Map ToString es = Map ToString es'.
Proof.
  intros Hperm Hnd. unfold Map. rewrite !fold_Set_assign.
  apply assign_Permutation; [done|]. unfold entries_leaves. by rewrite Hperm.
Qed.

End Entries.

(** * Further properties of [Keys] and [Group] *)

(** X10: whatever enumeration [Keys] returns, it lists every stored key
    once and nothing else, as many keys as the store has entries. *)
Theorem Keys_lists_each_key_once (m : gmap string string) ks :
  KeysOf m ks →
  NoDup ks ∧ length ks = size m ∧ ∀ k, k ∈ ks ↔ is_Some (m !! k).
Proof.
  intros Hks. split_and!.
  - unfold KeysOf in Hks. rewrite Hks. apply NoDup_fst_map_to_list.
  - unfold KeysOf, Keys in Hks. by rewrite Hks, length_fmap, length_map_to_list.
  - intros k. by apply elem_of_KeysOf.
Qed.

(** X11: [Group] does not depend on the order of the keys: two
    enumerations of the same keys give the same groups, up to their
    order. *)
Theorem Group_order ks ks' prefix :
  ks ≡ₚ ks' → Group_of ks prefix ≡ₚ Group_of ks' prefix.
Proof.
  intros Hperm. apply NoDup_Permutation; [apply NoDup_Group_of..|].
  intros g. rewrite !elem_of_Group_of.
  split; intros (k & Hk & Hg); exists k; (split; [|done]).
  - by rewrite <- Hperm.
  - by rewrite Hperm.
Qed.

Lemma dotless_first_Split s : dotless (first (Split s dot)) = true.
Proof.
  induction s as [|c s IH]; [done|].
  destruct (decide (c = dot)) as [->|Hc]; [by rewrite first_Split_dot|].
  rewrite first_Split_cons by done. simpl. by rewrite decide_False.
Qed.

Lemma first_Split_dotless s : dotless s = true → first (Split s dot) = s.
Proof.
  induction s as [|c s IH]; [done|]. simpl dotless.
  case_decide as Hc; [done|]. intros Hs.
  rewrite first_Split_cons by done. by rewrite IH.
Qed.

Lemma first_Split_dotless_app s t :
  dotless s = true → first (Split (s +:+ "." +:+ t) dot) = s.
Proof.
  induction s as [|c s IH]; [by intros _|]. simpl dotless.
  case_decide as Hc; [done|]. intros Hs.
  rewrite app_cons_s, first_Split_cons by done. by rewrite IH.
Qed.

(** X12: every group that [Group] returns is a segment without a dot, and
    it names a section that exists: some stored key is the child prefix of
    the group or lies under it. *)
Theorem Group_names_sections ks prefix g :
  g ∈ Group_of ks prefix →
  dotless g = true ∧
  ∃ k, k ∈ ks ∧
       (k = child prefix g ∨ HasPrefix k (child prefix g +:+ ".") = true).
Proof.
  intros Hg. destruct (decide (prefix = rootKey)) as [->|Hp].
  - apply elem_of_Group_root in Hg as (k & Hk & ->).
    split; [apply dotless_first_Split|]. exists k. split; [done|].
    rewrite child_root. destruct (Split_first k) as [Hs|[rest Hs]]; [by left|].
    right. apply HasPrefix_iff. exists rest. rewrite Hs at 1.
    by rewrite app_assoc_s.
  - apply elem_of_Group_under in Hg as (k & Hk & Hpre & ->); [|done].
    split; [apply dotless_first_Split|]. exists k. split; [done|].
    rewrite child_under by done. unfold fieldKey.
    set (rest := TrimPrefix k (prefix +:+ ".")).
    assert (Hkr : k = (prefix +:+ ".") +:+ rest) by by apply HasPrefix_TrimPrefix.
    destruct (Split_first rest) as [Hr|[rest' Hr]].
    + left. rewrite <- Hr. by rewrite <- app_assoc_s.
    + right. apply HasPrefix_iff. exists rest'.
      rewrite Hkr at 1. rewrite Hr at 1. by rewrite !app_assoc_s.
Qed.







Lemma fieldKey_under key f :
  HasPrefix (fieldKey key f) (key +:+ ".") = true ∧
  TrimPrefix (fieldKey key f) (key +:+ ".") = f.
Proof.
  unfold fieldKey. rewrite <- app_assoc_s.
  split; [apply HasPrefix_app|apply TrimPrefix_app].
Qed.

Section Sections.

Variable ToString : value → string.

(** X13: the groups under the key of a record of scalars are its field
    names, when these have no dot. *)
Theorem Group_lists_fields key es ks g :
  KeysOf (Set_ ToString key (VMap es) New) ks →
  key ≠ rootKey →
  Forall (λ kv, scalar kv.2 = true ∧ dotless (ToString kv.1) = true) es →
  g ∈ Group_of ks key ↔ ∃ k v, (k, v) ∈ es ∧ g = ToString k.
Proof.
  intros Hks Hkey Hes.
  assert (Hsc : Forall (λ kv, scalar kv.2 = true) es)
    by (eapply Forall_impl; [done|]; by intros ? [? _]).
  rewrite Forall_forall in Hes.
  rewrite elem_of_Group_under by done. split.
  - intros (p & [s Hl]%(Keys_Set ToString key _ ks p Hks) & Hpre & ->).
    apply leaf_map_scalars in Hl as (k & v & Hin & -> & _); [|done].
    exists k, v. split; [done|].
    destruct (fieldKey_under key (ToString k)) as [_ ->].
    apply first_Split_dotless. by apply (Hes (k, v)).
  - intros (k & v & Hin & ->). exists (fieldKey key (ToString k)).
    destruct (fieldKey_under key (ToString k)) as [Hpre Htrim].
    split_and!; [|done|].
    + apply (Keys_Set ToString key _ ks _ Hks). exists (ToString v).
      apply leaf_map_scalars; [done|]. by exists k, v.
    + rewrite Htrim. symmetry. apply first_Split_dotless. by apply (Hes (k, v)).
Qed.


End Sections.

(** * Further properties of [Bind] *)

Lemma fold_Tag_last opts t a :
  fold_left (λ arg (opt : BindOption), opt arg) (opts ++ [Tag t]) a = {| tag := t |}.
Proof. by rewrite fold_left_app. Qed.

Lemma fold_Key_last opts k a :
  fold_left (λ arg (opt : BindOption), opt arg) (opts ++ [Key k]) a
  = {| tag := "${" +:+ k +:+ "}" |}.
Proof. by rewrite fold_left_app. Qed.

(** The value that [Bind] goes on with: the [reflect.Value] itself, the
    pointee of a pointer. *)
Lemma Bind_proceeds p i opts :
  Bind p i opts =
    match i with
    | Plain v =>
        if decide (reflect.Kind_of v ≠ reflect.Ptr) then ReturnError errNotPointer
        else Bind p (ReflectValue (reflect.Elem v)) opts
    | ReflectValue _ => Bind p i opts
    end.
Proof. by destruct i. Qed.

(** X15: [Bind] panics exactly on the zero [reflect.Value] and on a nil
    pointer; for a pointer that is not nil the binder receives the value
    pointed to, with the path taken from its type. *)
Theorem Bind_pointer p i opts :
  (Bind p i opts = PanicZeroValue ↔
     i = ReflectValue reflect.zero ∨
     ∃ v, i = Plain v ∧ reflect.Kind_of v = reflect.Ptr ∧
          reflect.Elem v = reflect.zero) ∧
  (∀ v t addressable pointee,
     i = Plain v → reflect.Kind_of v = reflect.Ptr →
     reflect.Elem v = reflect.mk_Value t addressable pointee →
     ∃ tag, Bind p i opts
            = CallBind p (reflect.Elem v) tag {| path := pathOf t |}).
Proof.
  split.
  - split.
    + destruct i as [v|v]; unfold Bind.
      * destruct v; [by left|done].
      * case_decide as Hk; [done|].
        destruct (reflect.Elem v) eqn:E; [|done]. intros _. right. by exists v.
    + intros [->|(v & -> & Hk & He)]; [done|].
      unfold Bind. rewrite decide_False by (by intros []). by rewrite He.
  - intros v t a ptr -> Hk He. unfold Bind.
    rewrite decide_False by (by intros []). rewrite He. simpl. by eexists.
Qed.

(** X16: the options of [Bind] only choose the tag, and the last one
    wins. With no option the tag is the root key's, ["${$}"]; [Key k]
    stands for [Tag "${k}"]; an error or a panic of [Bind] is the same
    whatever the options. *)
Theorem Bind_options p i opts t k :
  Bind p i [] = Bind p i [Key rootKey] ∧
  Bind p i (opts ++ [Key k]) = Bind p i (opts ++ [Tag ("${" +:+ k +:+ "}")]) ∧
  Bind p i (opts ++ [Tag t]) =
    match Bind p i [] with
    | CallBind p' v _ opt => CallBind p' v t opt
    | r => r
    end.
Proof.
  split_and!.
  - done.
  - unfold Bind. by rewrite fold_Key_last, fold_Tag_last.
  - unfold Bind. rewrite fold_Tag_last. destruct i as [v|v].
    + by destruct (reflect.Type_of v).
    + case_decide; [done|]. by destruct (reflect.Type_of (reflect.Elem v)).
Qed.

(** * Further properties of the task primitives *)

Section Calls.

Variables Fn Arg Callable : Type.
Variable TypeOf : Fn → fnType.
Variable callAfterRefreshing : Container → result unit.
Variable arg_Bind : Fn → list Arg → result Callable.
Variable Call : Callable → Container → result (list value * option string).

(** X17: [Invoke] calls at once what [Go] would launch. For a function
    that [Invoke] accepts, on a container that [callAfterRefreshing] lets
    through: a panic of the call is not recovered but reaches the caller;
    an error of the call is returned without the output values; otherwise
    the output values are returned. When the function returns nothing,
    [Go] on the same arguments launches the same bound call and adds one
    to the wait group. *)
Theorem Invoke_calls w fn args r :
  callAfterRefreshing (container w) = Returns tt →
  IsFuncType (TypeOf fn) = true →
  ReturnNothing (TypeOf fn) = true ∨ ReturnOnlyError (TypeOf fn) = true →
  arg_Bind fn args = Returns r →
  (∀ v, Call r (container w) = Panics v →
     Invoke Fn Arg Callable TypeOf callAfterRefreshing arg_Bind Call w fn args
     = Panics v) ∧
  (∀ outs err, Call r (container w) = Returns (outs, Some err) →
     Invoke Fn Arg Callable TypeOf callAfterRefreshing arg_Bind Call w fn args
     = Returns ([], Some err)) ∧
  (∀ outs, Call r (container w) = Returns (outs, None) →
     Invoke Fn Arg Callable TypeOf callAfterRefreshing arg_Bind Call w fn args
     = Returns (outs, None)) ∧
  (ReturnNothing (TypeOf fn) = true →
     Go Fn Arg Callable TypeOf callAfterRefreshing arg_Bind w fn args
     = Returns {| container := wg_Add (container w);
                  goroutines := (goroutines w ++ [r])%list |}).
Proof.
  intros Href Hfn Hsig Hr.
  assert (Hacc : ReturnNothing (TypeOf fn) || ReturnOnlyError (TypeOf fn) = true)
    by (destruct Hsig as [-> | ->]; [done|by rewrite orb_true_r]).
  unfold Invoke, Go. rewrite Href, Hfn, Hacc, Hr. split_and!.
  - by intros v ->.
  - by intros outs err ->.
  - by intros outs ->.
  - by intros ->.
Qed.

End Calls.

Section BeanLookup.

Variables Selector BeanTag : Type.
Variable noSelector : Selector.
Variable toSingletonTag : Selector → BeanTag.
Variable callAfterRefreshing : Container → result unit.

Lemma fold_Use ss (a : beanArg Selector) :
  selector (fold_left (λ a (opt : UseOption Selector), opt a) (Use <$> ss) a)
  = default (selector a) (last ss).
Proof.
  revert a. induction ss as [|s ss IH]; intros a; [done|].
  rewrite fmap_cons. cbn [fold_left]. rewrite IH, last_cons.
  by destruct (last ss).
Qed.

Lemma collect_tags_map selectors : ∀ acc,
  fold_left (λ beanTags s, (beanTags ++ [toSingletonTag s])%list) selectors acc
  = (acc ++ (toSingletonTag <$> selectors))%list.
Proof.
  induction selectors as [|s selectors IH]; intros acc; simpl.
  - by rewrite app_nil_r.
  - by rewrite IH, <- app_assoc.
Qed.

(** X18: the errors of [pandora.Get]. A nil argument is refused with an
    error before the container is looked at, so also on a container that
    makes [callAfterRefreshing] panic; any other argument panics there;
    and the pointer error is returned exactly for an argument that is not
    nil and no pointer on a container that [callAfterRefreshing] lets
    through. *)
Theorem pandora_Get_errors c i opts :
  (is_nil i = true →
     pandora_Get Selector BeanTag noSelector toSingletonTag callAfterRefreshing
       c i opts = BeanError errGetNil) ∧
  (∀ v, pandora_Get Selector BeanTag noSelector toSingletonTag
          callAfterRefreshing c i opts = BeanPanics v ↔
        is_nil i = false ∧ callAfterRefreshing c = Panics v) ∧
  (pandora_Get Selector BeanTag noSelector toSingletonTag callAfterRefreshing
     c i opts = BeanError errGetPointer ↔
   is_nil i = false ∧ callAfterRefreshing c = Returns tt ∧
   kind_of_target i ≠ reflect.Ptr).
Proof.
  unfold pandora_Get. split_and!.
  - by intros ->.
  - intros v. destruct (is_nil i); [by split; [|intros [? _]]|].
    destruct (callAfterRefreshing c) as [[]|v'].
    + case_decide; by split; [|intros [_ ?]].
    + split; [by intros [= ->]|by intros [_ [= ->]]].
  - destruct (is_nil i); [by split; [|intros [? _]]|].
    destruct (callAfterRefreshing c) as [[]|v'].
    + case_decide; [done|]. by split; [|intros (_ & _ & ?)].
    + by split; [|intros (_ & ? & _)].
Qed.

(** X19: the bean that [pandora.Get] asks for. For a pointer, on a
    container that [callAfterRefreshing] lets through, [getBean] is
    called on the value pointed to, with the tag of the empty selector
    when no option is given and of the last selector given with [Use]
    otherwise. *)
Theorem pandora_Get_selector c i ss :
  callAfterRefreshing c = Returns tt →
  kind_of_target i = reflect.Ptr →
  pandora_Get Selector BeanTag noSelector toSingletonTag callAfterRefreshing
    c i (Use <$> ss)
  = CallGetBean (toSingletonTag (default noSelector (last ss)))
      (elem_of_target i).
Proof.
  intros Href Hk. unfold pandora_Get.
  assert (Hnil : is_nil i = false) by (by destruct i as [|[]]).
  rewrite Hnil, Href, decide_False by (by intros []).
  by rewrite fold_Use.
Qed.

(** X20: [pandora.Collect] looks at the container first: where
    [callAfterRefreshing] panics, so does [Collect], also for a nil
    argument. Where it returns, an argument that is no pointer is
    refused with an error, and for a pointer [collectBeans] is called on
    the value pointed to with one tag for each selector, in the order of
    the selectors, and with no tag when no selector is given. *)
Theorem pandora_Collect_outcomes c i selectors :
  (∀ v, callAfterRefreshing c = Panics v →
     pandora_Collect Selector BeanTag toSingletonTag callAfterRefreshing
       c i selectors = BeanPanics v) ∧
  (callAfterRefreshing c = Returns tt → kind_of_target i ≠ reflect.Ptr →
     pandora_Collect Selector BeanTag toSingletonTag callAfterRefreshing
       c i selectors = BeanError errCollectPointer) ∧
  (callAfterRefreshing c = Returns tt → kind_of_target i = reflect.Ptr →
     pandora_Collect Selector BeanTag toSingletonTag callAfterRefreshing
       c i selectors
     = CallCollectBeans (toSingletonTag <$> selectors) (elem_of_target i)).
Proof.
  unfold pandora_Collect. split_and!.
  - by intros v ->.
  - intros -> Hk. by rewrite decide_True.
  - intros -> Hk. rewrite decide_False by (by intros []).
    unfold collect_tags. by rewrite collect_tags_map.
Qed.

End BeanLookup.

(** * Properties of [Read] and [Load] *)

Section Loaded.

Variable ToString : value → string.
Variable readers : gmap string (list Byte.byte → list (string * value) + string).
Variable ReadFile : string → list Byte.byte + string.
Variable Ext : string → string.

Lemma fold_Set_keeps es (p : gmap string string) k :
  is_Some (p !! k) →
  is_Some (fold_left (λ p kv, Set_ ToString kv.1 kv.2 p) es p !! k).
Proof.
  revert p. induction es as [|[key v] es IH]; intros p Hk; [done|].
  simpl. apply IH. apply elem_of_dom. rewrite Set_dom.
  apply elem_of_union. right. by apply elem_of_dom.
Qed.

(** X21: the method [Read] stores nothing when it fails and loses nothing
    when it succeeds. With an error the store is the one before; without,
    the extension has a reader, the reader decoded the bytes, the leaves
    of the decoded entries were written over the store, and every key
    stored before is still stored. *)
Theorem Properties_Read_outcomes p b ext p' err :
  Properties_Read ToString readers p b ext = (p', err) →
  (err ≠ None → p' = p) ∧
  (err = None →
     ∃ r m, readers !! ext = Some r ∧ r b = inl m ∧
            p' = assign (entries_leaves ToString m) p) ∧
  (∀ k, is_Some (p !! k) → is_Some (p' !! k)).
Proof.
  unfold Properties_Read.
  destruct (readers !! ext) as [r|] eqn:Er; [|by intros [= <- <-]].
  destruct (r b) as [m|e] eqn:Em; [|by intros [= <- <-]].
  intros [= <- <-]. split_and!; [done| |].
  - intros _. exists r, m. by rewrite fold_Set_assign.
  - intros k. apply fold_Set_keeps.
Qed.

Lemma Read_inl b ext p :
  Read ToString readers b ext = inl p ↔
  ∃ r m, readers !! ext = Some r ∧ r b = inl m ∧ p = Map ToString m.
Proof.
  unfold Read, Properties_Read, Map.
  destruct (readers !! ext) as [r|] eqn:Er.
  - destruct (r b) as [m|e] eqn:Em.
    + split; [intros [= <-]; by exists r, m|].
      intros (r' & m' & [= <-] & Hm & ->). rewrite Em in Hm. by injection Hm as <-.
    + split; [done|]. intros (r' & m' & [= <-] & Hm & _). by rewrite Em in Hm.
  - split; [done|]. by intros (r' & m' & ? & _).
Qed.

Lemma Read_inr b ext err :
  Read ToString readers b ext = inr err ↔
  (readers !! ext = None ∧ err = "unsupported file type " +:+ ext) ∨
  (∃ r, readers !! ext = Some r ∧ r b = inr err).
Proof.
  unfold Read, Properties_Read.
  destruct (readers !! ext) as [r|] eqn:Er.
  - destruct (r b) as [m|e] eqn:Em.
    + split; [done|]. intros [[? _]|(r' & [= <-] & Hm)]; [done|].
      by rewrite Em in Hm.
    + split; [intros [= <-]; right; by exists r|].
      intros [[? _]|(r' & [= <-] & Hm)]; [done|]. rewrite Em in Hm.
      by injection Hm as <-.
  - split; [intros [= <-]; by left|]. by intros [[_ ->]|(r' & ? & _)].
Qed.

Lemma Load_Read file :
  Load ToString readers ReadFile Ext file =
    match ReadFile file with
    | inr err => inr err
    | inl b => Read ToString readers b (Ext file)
    end.
Proof. unfold Load, Properties_Load, Read. by destruct (ReadFile file). Qed.

(** X22: the function [Read] returns the property list that [Map] builds
    from the decoded entries, and it returns an error exactly when the
    extension has no reader, with the message "unsupported file type" and
    the extension, or when the reader fails, with the reader's error. *)
Theorem Read_returns b ext :
  (∀ p, Read ToString readers b ext = inl p ↔
        ∃ r m, readers !! ext = Some r ∧ r b = inl m ∧ p = Map ToString m) ∧
  (∀ err, Read ToString readers b ext = inr err ↔
          (readers !! ext = None ∧ err = "unsupported file type " +:+ ext) ∨
          (∃ r, readers !! ext = Some r ∧ r b = inr err)).
Proof. split; [apply Read_inl|apply Read_inr]. Qed.

(** X23: [Load] returns a property list exactly when the file can be
    read, the extension of its name has a reader and the reader decodes
    the bytes, and the list is then the one [Map] builds from the decoded
    entries. A file that cannot be read gives its error whatever the
    extension, and the method [Load] then leaves the store as it was; a
    file that can be read gives the errors of [Read]. *)
Theorem Load_returns file :
  (∀ p, Load ToString readers ReadFile Ext file = inl p ↔
        ∃ b r m, ReadFile file = inl b ∧ readers !! Ext file = Some r ∧
                 r b = inl m ∧ p = Map ToString m) ∧
  (∀ err, Load ToString readers ReadFile Ext file = inr err ↔
          ReadFile file = inr err ∨
          (∃ b, ReadFile file = inl b ∧
                ((readers !! Ext file = None ∧
                  err = "unsupported file type " +:+ Ext file) ∨
                 (∃ r, readers !! Ext file = Some r ∧ r b = inr err)))) ∧
  (∀ p err, ReadFile file = inr err →
     Properties_Load ToString readers ReadFile Ext p file = (p, Some err)).
Proof.
  rewrite Load_Read. split_and!.
  - intros p. destruct (ReadFile file) as [b|e] eqn:Ef.
    + rewrite Read_inl. split.
      * intros (r & m & ? & ? & ?). by exists b, r, m.
      * intros (b' & r & m & [= <-] & ? & ? & ?). by exists r, m.
    + split; [done|]. by intros (b' & r & m & ? & _).
  - intros err. destruct (ReadFile file) as [b|e] eqn:Ef.
    + rewrite Read_inr. split.
      * intros H. right. by exists b.
      * by intros [?|(b' & [= <-] & H)].
    + split; [intros [= <-]; by left|].
      by intros [[= <-]|(b' & ? & _)].
  - intros p err Hf. unfold Properties_Load. by rewrite Hf.
Qed.

End Loaded.

(** * The status line *)

Lemma pretty_N_go_lacks c x : ∀ s,
  (∀ d, pretty_N_char d ≠ c) → lacks c s = true →
  lacks c (pretty_N_go x s) = true.
Proof.
  induction (N.lt_wf_0 x) as [x _ IH]. intros s Hc Hs.
  destruct (decide (x = 0%N)) as [->|Hx]; [by rewrite pretty_N_go_0|].
  rewrite pretty_N_go_step by lia. apply IH; [apply N.div_lt; lia|done|].
  simpl. by rewrite decide_False.
Qed.

Lemma pretty_N_lacks_space (x : N) : lacks " " (pretty x) = true.
Proof.
  unfold pretty, pretty_N. case_decide; [done|].
  apply pretty_N_go_lacks; [|done].
  intros d. unfold pretty_N_char. by repeat case_match.
Qed.

Lemma pretty_Z_lacks_space (z : Z) : lacks " " (pretty z) = true.
Proof.
  unfold pretty, pretty_Z. destruct z as [|p|p].
  - done.
  - apply pretty_N_lacks_space.
  - change ("-" +:+ pretty (N.pos p)) with (String "-" (pretty (N.pos p))).
    simpl. apply pretty_N_lacks_space.
Qed.

(** Two texts without [c] that go on with [c] and agree are the same. *)
Lemma lacks_split c : ∀ a a' r r',
  lacks c a = true → lacks c a' = true →
  a +:+ String c r = a' +:+ String c r' → a = a'.
Proof.
  induction a as [|x a IH]; intros [|y a'] r r' Ha Ha' H.
  - done.
  - rewrite app_nil_l_s, app_cons_s in H. injection H as <- _.
    simpl in Ha'. by rewrite decide_True in Ha'.
  - rewrite app_nil_l_s, app_cons_s in H. injection H as -> _.
    simpl in Ha. by rewrite decide_True in Ha.
  - rewrite !app_cons_s in H. injection H as <- H. f_equal.
    simpl in Ha, Ha'. case_decide; [done|]. by eapply IH.
Qed.

(** X24: the status line tells the protocol version and the code apart.
    [writeStatusLine] only appends to the buffer, and on the same buffer
    two lines are equal only for the same version flag and the same
    code, whatever the table of status texts. *)
Theorem writeStatusLine_determines StatusText buf is11 code is11' code' :
  writeStatusLine StatusText buf is11 code
  = writeStatusLine StatusText buf is11' code' →
  is11 = is11' ∧ code = code' ∧
  HasPrefix (writeStatusLine StatusText buf is11 code) buf = true.
Proof.
  unfold writeStatusLine. intros H.
  assert (Hline : ∀ (b : bool) c,
    ((((if b then buf +:+ "HTTP/1.1 " else buf +:+ "HTTP/1.0 ")
         +:+ pretty c) +:+ " ") +:+ StatusText c) +:+ CRLF
    = buf +:+ (if b then "HTTP/1.1 " else "HTTP/1.0 ")
          +:+ pretty c +:+ String " " (StatusText c +:+ CRLF)).
  { intros b c. destruct b; by rewrite !app_assoc_s. }
  rewrite !Hline in *. split_and!; [| |apply HasPrefix_app].
  - apply app_inv_head_s in H. destruct is11, is11'; try done;
      repeat rewrite app_cons_s in H; by injection H.
  - apply app_inv_head_s in H.
    assert (H' : pretty code +:+ String " " (StatusText code +:+ CRLF)
                 = pretty code' +:+ String " " (StatusText code' +:+ CRLF)).
    { destruct is11, is11'; repeat rewrite app_cons_s in H;
        rewrite ?app_nil_l_s in H; by injection H. }
    apply lacks_split in H'; [|apply pretty_Z_lacks_space..].
    by apply (inj pretty) in H'.
Qed.

(** * The further properties at concrete inputs *)

Lemma Set_writes_under_key_witness :
  Set_ castToString "a" sample_value (<["b" := "old"]> New) !! "b" = Some "old".
Proof.
  destruct (Set_writes_under_key castToString "a" sample_value
              (<["b" := "old"]> New) "b") as [H _].
  rewrite H; reflexivity.
Defined.

Lemma Set_scalar_Get_witness :
  Get castToString "port" [] (Set_ castToString "port" (VInt 80) New)
  = Some (castToString (VInt 80)).
Proof.
  destruct (Set_scalar_Get castToString "port" (VInt 80) New [] eq_refl eq_refl)
    as [H _].
  exact H.
Defined.

Lemma Set_root_prefix_not_read_witness :
  Get castToString ("$." +:+ "port") []
    (Set_ castToString ("$." +:+ "port") (VInt 80) New) = None.
Proof.
  destruct (Set_root_prefix_not_read castToString "port" (VInt 80) eq_refl)
    as [_ H].
  exact H.
Defined.

Lemma Set_sequence_elements_witness :
  Set_ castToString "a" (VSlice [VInt 7; VString "x"]) New !! indexKey "a" 1
  = Some (castToString (VString "x")).
Proof.
  assert (H1 : VSlice [VInt 7; VString "x"] = VSlice [VInt 7; VString "x"] ∨
               VSlice [VInt 7; VString "x"] = VArray [VInt 7; VString "x"])
    by (by left).
  assert (H2 : Forall (λ x, scalar x = true) [VInt 7; VString "x"])
    by (by repeat constructor).
  destruct (Set_sequence_elements castToString "a" _ _ New H1 H2) as [H _].
  exact (H 1 (VString "x") eq_refl).
Defined.

Lemma Set_map_fields_witness :
  Set_ castToString "db" (VMap [(VString "url", VString "x"); (VString "port", VInt 1)])
    New !! fieldKey "db" (castToString (VString "port"))
  = Some (castToString (VInt 1)).
Proof.
  apply (Set_map_fields castToString "db"
           [(VString "url", VString "x"); (VString "port", VInt 1)] New).
  - by repeat constructor.
  - apply NoDup_cons. split; [|apply NoDup_singleton].
    by intros [=]%list_elem_of_singleton.
  - apply list_elem_of_further, list_elem_of_here.
Defined.

Lemma sample_leaves_NoDup :
  NoDup (leaves castToString "db"
           (VMap [(VString "url", VString "x"); (VString "port", VInt 1)])).*1.
Proof.
  apply NoDup_cons. split; [|apply NoDup_singleton].
  by intros [=]%list_elem_of_singleton.
Qed.

Lemma Set_map_order_witness :
  Set_ castToString "db" (VMap [(VString "url", VString "x"); (VString "port", VInt 1)]) New
  = Set_ castToString "db" (VMap [(VString "port", VInt 1); (VString "url", VString "x")]) New.
Proof.
  apply Set_map_order; [apply perm_swap|apply sample_leaves_NoDup].
Defined.

Lemma sample_entries_NoDup :
  NoDup (entries_leaves castToString
           [("url", VString "x"); ("ports", VSlice [VInt 1; VInt 2])]).*1.
Proof.
  assert (H : (entries_leaves castToString
                 [("url", VString "x"); ("ports", VSlice [VInt 1; VInt 2])]).*1
              = ["url"; "ports[0]"; "ports[1]"]) by (by vm_compute).
  rewrite H. repeat (apply NoDup_cons; split); [| |apply not_elem_of_nil|apply NoDup_nil_2].
  - intros [[=]|[[=]|[]%elem_of_nil]%elem_of_cons]%elem_of_cons.
  - intros [[=]|[]%elem_of_nil]%elem_of_cons.
Qed.

Lemma Map_reads_leaves_witness :
  Map castToString [("url", VString "x"); ("ports", VSlice [VInt 1; VInt 2])]
    !! indexKey "ports" 1 = Some (castToString (VInt 2)).
Proof.
  destruct (Map_reads_leaves castToString _ sample_entries_NoDup) as [H _].
  apply (H "ports" (VSlice [VInt 1; VInt 2])).
  - apply list_elem_of_further, list_elem_of_here.
  - eapply (leaf_slice castToString "ports" _ 1); [reflexivity|].
    exact (leaf_scalar castToString (indexKey "ports" 1) (VInt 2) eq_refl).
Defined.

Lemma Map_order_witness :
  Map castToString [("url", VString "x"); ("ports", VSlice [VInt 1; VInt 2])]
  = Map castToString [("ports", VSlice [VInt 1; VInt 2]); ("url", VString "x")].
Proof.
  apply Map_order; [apply perm_swap|apply sample_entries_NoDup].
Defined.

Lemma Keys_lists_each_key_once_witness :
  NoDup (Keys (Set_ castToString "a" sample_value New)) ∧
  length (Keys (Set_ castToString "a" sample_value New))
  = size (Set_ castToString "a" sample_value New).
Proof.
  destruct (Keys_lists_each_key_once (Set_ castToString "a" sample_value New)
              (Keys (Set_ castToString "a" sample_value New)))
    as (H1 & H2 & _); [unfold KeysOf; reflexivity|].
  by split.
Defined.

Lemma Group_order_witness :
  Group_of ["db.one.url"; "db.two.url"] "db" ≡ₚ Group_of ["db.two.url"; "db.one.url"] "db".
Proof. apply Group_order, perm_swap. Defined.

Lemma Group_names_sections_witness :
  dotless "one" = true ∧
  ∃ k, k ∈ ["db.one.url"; "db.two.url"] ∧
       (k = child "db" "one" ∨ HasPrefix k (child "db" "one" +:+ ".") = true).
Proof.
  apply (Group_names_sections ["db.one.url"; "db.two.url"] "db" "one").
  vm_compute. apply list_elem_of_here.
Defined.

Lemma Group_lists_fields_witness :
  "port" ∈ Group_of
    (Keys (Set_ castToString "db"
             (VMap [(VString "url", VString "x"); (VString "port", VInt 1)]) New)) "db".
Proof.
  apply (Group_lists_fields castToString "db"
           [(VString "url", VString "x"); (VString "port", VInt 1)]).
  - unfold KeysOf. reflexivity.
  - discriminate.
  - by repeat constructor.
  - exists (VString "port"), (VInt 1).
    split; [apply list_elem_of_further, list_elem_of_here|reflexivity].
Defined.


Lemma Invoke_calls_witness :
  Go fnType unit nat id refreshed bound_task idle (FuncOf []) []
  = Returns {| container := wg_Add (container idle);
               goroutines := (goroutines idle ++ [0])%list |}.
Proof.
  destruct (Invoke_calls fnType unit nat id refreshed bound_task quiet_call
              idle (FuncOf []) [] 0 eq_refl eq_refl (or_introl eq_refl) eq_refl)
    as (_ & _ & _ & H).
  exact (H eq_refl).
Defined.

Lemma pandora_Get_selector_witness :
  pandora_Get string string "" id refreshed (container idle)
    (Plain pointer_to_int) (Use <$> ["a"; "b"])
  = CallGetBean "b" (reflect.mk_Value type_int true None).
Proof.
  exact (pandora_Get_selector string string "" id refreshed (container idle)
           (Plain pointer_to_int) ["a"; "b"] eq_refl eq_refl).
Defined.

Lemma pandora_Collect_outcomes_witness :
  pandora_Collect string string id refreshed (container idle)
    (Plain pointer_to_int) ["a"; "b"]
  = CallCollectBeans ["a"; "b"] (reflect.mk_Value type_int true None).
Proof.
  destruct (pandora_Collect_outcomes string string id refreshed (container idle)
              (Plain pointer_to_int) ["a"; "b"]) as (_ & _ & H).
  exact (H eq_refl eq_refl).
Defined.

Lemma Properties_Read_outcomes_witness :
  is_Some (assign (entries_leaves castToString [("a", VInt 1)])
             (<["b" := "old"]> New) !! "b").
Proof.
  destruct (Properties_Read_outcomes castToString sample_readers
              (<["b" := "old"]> New) [] ".one"
              (assign (entries_leaves castToString [("a", VInt 1)])
                 (<["b" := "old"]> New)) None eq_refl) as (_ & _ & H).
  apply H. by exists "old".
Defined.

Lemma writeStatusLine_determines_witness :
  true = true ∧ 200%Z = 200%Z ∧
  HasPrefix (writeStatusLine (λ _, "OK") "" true 200) "" = true.
Proof.
  exact (writeStatusLine_determines (λ _, "OK") "" true 200 true 200 eq_refl).
Defined.
